(** * Range tombstones of Scylla: bounds, comparator, merge and accumulator

    A shallow embedding of [range_tombstone.hh]: the bound kinds, the
    schema-aware bound comparator, the range tombstone entity and the
    streaming accumulator, with the properties stated about them. *)

From Stdlib Require Import List ZArith Bool Lia.
From Stdlib Require Import Strings.Byte.
Import ListNotations.
Open Scope Z_scope.

(** ** Bound kinds *)

(** [enum class bound_kind : uint8_t]. *)
Inductive bound_kind : Type :=
| excl_end
| incl_start
| incl_end
| excl_start.

(** The [uint8_t] value of each enumerator. *)
Definition bound_kind_value (k : bound_kind) : Z :=
  match k with
  | excl_end => 0
  | incl_start => 1
  | incl_end => 6
  | excl_start => 7
  end.

(** [==] on [bound_kind]. *)
Definition bound_kind_eqb (k1 k2 : bound_kind) : bool :=
  bound_kind_value k1 =? bound_kind_value k2.

(** [flip_bound_kind]: the [switch] of the header, case by case. *)
Definition flip_bound_kind (bk : bound_kind) : bound_kind :=
  match bk with
  | excl_end => excl_start
  | incl_end => incl_start
  | excl_start => excl_end
  | incl_start => incl_end
  end.

(** Modelled from the spec: the body of [invert_kind], which the header only
    declares.  It is the complement mapping: [excl_end <-> incl_start],
    [incl_end <-> excl_start]. *)
Definition invert_kind (k : bound_kind) : bound_kind :=
  match k with
  | excl_end => incl_start
  | incl_start => excl_end
  | incl_end => excl_start
  | excl_start => incl_end
  end.

(** Modelled from the spec: the body of [weight], which the header only
    declares.  [excl_end] and [incl_start] are start-like (weight -1),
    [incl_end] and [excl_start] are end-like (weight +1).  The table fixes
    the sign of each weight; how the two kinds of one polarity compare with
    each other is a matter of [header_weights] below. *)
Definition weight (k : bound_kind) : Z :=
  match k with
  | excl_end => -1
  | incl_start => -1
  | incl_end => 1
  | excl_start => 1
  end.

Definition start_like (k : bound_kind) : bool := weight k <? 0.
Definition end_like (k : bound_kind) : bool := 0 <? weight k.

(** ** The schema collaborator

    [keys.hh], [types.hh] and [schema.hh] are outside the file; what the
    comparator needs of them is a vector of column types, each with a
    three-way comparison of serialized values, and a clustering key prefix
    that is a sequence of serialized components. *)

(** A serialized column value. *)
Definition bytes : Type := list byte.

(** Modelled from the spec: a column type of [types.hh], as far as the
    comparator needs it: the per-column ordering function, a three-way
    comparison of two serialized values. *)
Record data_type : Type := mk_data_type {
  type_compare : bytes -> bytes -> Z
}.

(** Modelled from the spec: [tri_compare] of [types.hh], the per-column
    ordering of the type [t] on two values. *)
Definition tri_compare (t : data_type) (e1 e2 : bytes) : Z :=
  type_compare t e1 e2.

(** Modelled from the spec: the schema of [schema.hh], as far as the file
    needs it: the column types of the clustering key, in order. *)
Record schema : Type := mk_schema {
  clustering_key_prefix_type : list data_type
}.

(** Modelled from the spec: a clustering key prefix of [keys.hh]: an ordered
    tuple of column values, possibly a strict prefix of the full clustering
    key. *)
Definition clustering_key_prefix : Type := list bytes.

(** Modelled from the spec: [p.size(s)] of [keys.hh], the number of
    components of the prefix. *)
Definition size (p : clustering_key_prefix) : nat := length p.

(** Modelled from the spec: [p.is_full(s)] of [keys.hh], the full-key
    predicate: the prefix has as many components as the schema has
    clustering columns. *)
Definition is_full (s : schema) (p : clustering_key_prefix) : bool :=
  Nat.eqb (size p) (length (clustering_key_prefix_type s)).

(** Modelled from the spec: [prefix_equality_tri_compare] of [types.hh]: the
    two prefixes are compared component-wise with the schema's per-column
    ordering, only over the components present in the shorter prefix; the
    first non-zero result is the answer, and 0 is the answer when there is
    none.  A prefix with more components than the schema has column types is
    malformed; the walk ends with the types. *)
Fixpoint prefix_equality_tri_compare (types : list data_type)
    (p1 p2 : clustering_key_prefix) {struct p1} : Z :=
  match p1, p2 with
  | v1 :: r1, v2 :: r2 =>
      match types with
      | t :: ts =>
          let c := tri_compare t v1 v2 in
          if negb (c =? 0) then c else prefix_equality_tri_compare ts r1 r2
      | [] => 0
      end
  | _, _ => 0
  end.

(** Modelled from the spec: [p1.equal(s, p2)] of [keys.hh], schema-equality
    of two prefixes: the same number of components, pairwise comparing equal
    under the column types. *)
Definition prefix_equal (s : schema) (p1 p2 : clustering_key_prefix) : bool :=
  Nat.eqb (size p1) (size p2)
  && (prefix_equality_tri_compare (clustering_key_prefix_type s) p1 p2 =? 0).

(** A column type is usable when its comparison is a three-way comparison
    of a total preorder. *)
Record valid_type (t : data_type) : Prop := mk_valid_type {
  type_compare_antisym :
    forall a b, Z.sgn (type_compare t b a) = - Z.sgn (type_compare t a b);
  type_compare_trans :
    forall a b c, type_compare t a b <= 0 -> type_compare t b c <= 0 ->
                  type_compare t a c <= 0
}.

Definition valid_schema (s : schema) : Prop :=
  Forall valid_type (clustering_key_prefix_type s).

(** An example column type: [bytes_type], ordered as [compare_unsigned]
    orders byte strings (bytewise, the shorter string first on a tie). *)
Fixpoint compare_unsigned (a b : bytes) : Z :=
  match a, b with
  | [], [] => 0
  | [], _ :: _ => -1
  | _ :: _, [] => 1
  | x :: a', y :: b' =>
      match N.compare (Byte.to_N x) (Byte.to_N y) with
      | Lt => -1
      | Gt => 1
      | Eq => compare_unsigned a' b'
      end
  end.

Definition bytes_type : data_type := mk_data_type compare_unsigned.

(** ** Bounds and the bound comparator *)

Record bound_view : Type := mk_bound_view {
  prefix : clustering_key_prefix;
  kind : bound_kind
}.

(** [bound_view::compare::operator()(p1, w1, p2, w2)]. *)
Definition bound_view_compare (s : schema)
    (p1 : clustering_key_prefix) (w1 : Z)
    (p2 : clustering_key_prefix) (w2 : Z) : bool :=
  let type := clustering_key_prefix_type s in
  let res := prefix_equality_tri_compare type p1 p2 in
  if negb (res =? 0) then res <? 0
  else
    let d1 := size p1 in
    let d2 := size p2 in
    if Nat.eqb d1 d2 then w1 <? w2
    else if Nat.ltb d1 d2 then w1 <=? 0 else 0 <? w2.

(** [operator()(bound_view b, const clustering_key_prefix& p)]. *)
Definition compare_bound_prefix (s : schema) (b : bound_view)
    (p : clustering_key_prefix) : bool :=
  bound_view_compare s (prefix b) (weight (kind b)) p 0.

(** [operator()(const clustering_key_prefix& p, bound_view b)]. *)
Definition compare_prefix_bound (s : schema) (p : clustering_key_prefix)
    (b : bound_view) : bool :=
  bound_view_compare s p 0 (prefix b) (weight (kind b)).

(** [operator()(bound_view b1, bound_view b2)]. *)
Definition compare_bounds (s : schema) (b1 b2 : bound_view) : bool :=
  bound_view_compare s (prefix b1) (weight (kind b1))
                       (prefix b2) (weight (kind b2)).

(** [bound_view::equal]. *)
Definition bound_equal (s : schema) (b other : bound_view) : bool :=
  bound_kind_eqb (kind b) (kind other) && prefix_equal s (prefix b) (prefix other).

(** [bound_view::adjacent]. *)
Definition adjacent (s : schema) (b other : bound_view) : bool :=
  bound_kind_eqb (invert_kind (kind other)) (kind b)
  && prefix_equal s (prefix b) (prefix other).

(** [bound_view::bottom] and [bound_view::top], on the empty prefix. *)
Definition empty_prefix : clustering_key_prefix := [].
Definition bottom : bound_view := mk_bound_view empty_prefix incl_start.
Definition top : bound_view := mk_bound_view empty_prefix incl_end.

(** [operator()(bound_view b1, bound_view b2)] with the table of [weight],
    whose body is not in the header, taken as the parameter [w]. *)
Definition compare_bounds_with (w : bound_kind -> Z) (s : schema)
    (b1 b2 : bound_view) : bool :=
  bound_view_compare s (prefix b1) (w (kind b1)) (prefix b2) (w (kind b2)).


(** A table that [header_weights] admits, with the least weights. *)
Definition separated_weight (k : bound_kind) : Z :=
  match k with
  | excl_end => -2
  | incl_start => -1
  | incl_end => 1
  | excl_start => 2
  end.

(** ** Tombstones *)

(** Modelled from the spec: the tombstone value type of [tombstone.hh], which
    is outside the file: a deletion timestamp and a deletion time. *)
Record tombstone : Type := mk_tombstone {
  timestamp : Z;
  deletion_time : Z
}.

(** Modelled from the spec: the timestamp of the null tombstone, which
    carries no live deletion; it is below every timestamp of a deletion. *)
Definition missing_timestamp : Z := - 2 ^ 63.

(** Modelled from the spec: the null tombstone, a fresh default. *)
Definition no_tombstone : tombstone := mk_tombstone missing_timestamp (2 ^ 63 - 1).

(** Modelled from the spec: [bool(tomb)], the tombstone carries a live
    deletion. *)
Definition tombstone_bool (t : tombstone) : bool :=
  negb (timestamp t =? missing_timestamp).

(** Modelled from the spec: [t1 == t2], equality of tombstones. *)
Definition tombstone_eqb (t1 t2 : tombstone) : bool :=
  (timestamp t1 =? timestamp t2) && (deletion_time t1 =? deletion_time t2).

(** Modelled from the spec: [t1 < t2], strictly lower deletion priority;
    tombstones compare by deletion timestamp. *)
Definition tombstone_less (t1 t2 : tombstone) : bool :=
  timestamp t1 <? timestamp t2.

(** Modelled from the spec: [t.apply(src)], the maximum-priority tombstone
    of the two, [t] on a tie. *)
Definition tombstone_apply (t src : tombstone) : tombstone :=
  if tombstone_less t src then src else t.

(** ** Range tombstones *)

Record range_tombstone : Type := mk_range_tombstone {
  start : clustering_key_prefix;
  start_kind : bound_kind;
  end_ : clustering_key_prefix;
  end_kind : bound_kind;
  tomb : tombstone
}.

(** The constructor from two bounds. *)
Definition range_tombstone_of_bounds (s e : bound_view) (t : tombstone)
    : range_tombstone :=
  mk_range_tombstone (prefix s) (kind s) (prefix e) (kind e) t.

(** The constructor from two prefixes, inclusive on both sides. *)
Definition range_tombstone_of_prefixes (s e : clustering_key_prefix)
    (t : tombstone) : range_tombstone :=
  mk_range_tombstone s incl_start e incl_end t.

Definition start_bound (rt : range_tombstone) : bound_view :=
  mk_bound_view (start rt) (start_kind rt).

Definition end_bound (rt : range_tombstone) : bound_view :=
  mk_bound_view (end_ rt) (end_kind rt).

Definition range_tombstone_empty (rt : range_tombstone) : bool :=
  negb (tombstone_bool (tomb rt)).

(** [range_tombstone::equal]. *)
Definition range_tombstone_equal (s : schema) (rt other : range_tombstone)
    : bool :=
  tombstone_eqb (tomb rt) (tomb other)
  && bound_equal s (start_bound rt) (start_bound other)
  && bound_equal s (end_bound rt) (end_bound other).

(** [range_tombstone::compare]: by start bound. *)
Definition range_tombstone_compare (s : schema) (rt1 rt2 : range_tombstone)
    : bool :=
  compare_bounds s (start_bound rt1) (start_bound rt2).

(** The hasher is the sequence of what has been fed to it. *)
Inductive hashed : Type :=
| hashed_prefix (p : clustering_key_prefix)
| hashed_kind (k : bound_kind)
| hashed_tombstone (t : tombstone).

Definition hasher : Type := list hashed.

Definition feed (h : hasher) (x : hashed) : hasher := h ++ [x].

(** [range_tombstone::feed_hash]. *)
Definition feed_hash (s : schema) (rt : range_tombstone) (h : hasher) : hasher :=
  let h := feed h (hashed_prefix (start rt)) in
  let h :=
    if negb (prefix_equal s (start rt) (end_ rt))
       || negb (bound_kind_eqb (start_kind rt) incl_start)
       || negb (bound_kind_eqb (end_kind rt) incl_end)
    then
      let h := feed h (hashed_kind (start_kind rt)) in
      let h := feed h (hashed_prefix (end_ rt)) in
      feed h (hashed_kind (end_kind rt))
    else h in
  feed h (hashed_tombstone (tomb rt)).

(** [range_tombstone::is_single_clustering_row_tombstone]. *)
Definition is_single_clustering_row_tombstone (s : schema)
    (start0 : clustering_key_prefix) (start_kind0 : bound_kind)
    (end0 : clustering_key_prefix) (end_kind0 : bound_kind) : bool :=
  is_full s start0 && bound_kind_eqb start_kind0 incl_start
  && bound_kind_eqb end_kind0 incl_end && prefix_equal s start0 end0.

(** [range_tombstone::flip]: its four statements, one after the other. *)
Definition swap_start_end (rt : range_tombstone) : range_tombstone :=
  mk_range_tombstone (end_ rt) (start_kind rt) (start rt) (end_kind rt) (tomb rt).

Definition swap_kinds (rt : range_tombstone) : range_tombstone :=
  mk_range_tombstone (start rt) (end_kind rt) (end_ rt) (start_kind rt) (tomb rt).

Definition set_start_kind (k : bound_kind) (rt : range_tombstone)
    : range_tombstone :=
  mk_range_tombstone (start rt) k (end_ rt) (end_kind rt) (tomb rt).

Definition set_end_kind (k : bound_kind) (rt : range_tombstone)
    : range_tombstone :=
  mk_range_tombstone (start rt) (start_kind rt) (end_ rt) k (tomb rt).

Definition flip (rt : range_tombstone) : range_tombstone :=
  let rt := swap_start_end rt in
  let rt := swap_kinds rt in
  let rt := set_start_kind (flip_bound_kind (start_kind rt)) rt in
  set_end_kind (flip_bound_kind (end_kind rt)) rt.

(** Modelled from the spec: the merge of [range_tombstone::apply], whose body
    the header only declares, under a given order [less] of bounds.  The
    winner is the tombstone of strictly higher priority, [this]'s on a tie;
    [this] takes the winner and is cut at the smaller of the two end bounds;
    when the loser's range goes beyond that bound the remainder starts there
    with the complementary kind, ends where the loser ended and carries the
    loser's tombstone.  The result is the new [this] and the remainder, if
    any. *)
Definition merge_same_start (less : bound_view -> bound_view -> bool)
    (this src : range_tombstone) : range_tombstone * option range_tombstone :=
  let src_wins := tombstone_less (tomb this) (tomb src) in
  let winner := if src_wins then tomb src else tomb this in
  let loser := if src_wins then this else src in
  let shared_end :=
    if less (end_bound src) (end_bound this)
    then end_bound src else end_bound this in
  let this' :=
    mk_range_tombstone (start this) (start_kind this)
                       (prefix shared_end) (kind shared_end) winner in
  let remainder :=
    if less shared_end (end_bound loser)
    then Some (mk_range_tombstone (prefix shared_end)
                                  (invert_kind (kind shared_end))
                                  (end_ loser) (end_kind loser) (tomb loser))
    else None in
  (this', remainder).

(** Modelled from the spec: [range_tombstone::apply(s, src)], the merge under
    the bound order of the schema [s]. *)
Definition range_tombstone_apply (s : schema) (this src : range_tombstone)
    : range_tombstone * option range_tombstone :=
  merge_same_start (compare_bounds s) this src.

(** ** The accumulator *)

Record range_tombstone_accumulator : Type := mk_accumulator {
  _cmp : schema;
  _partition_tombstone : tombstone;
  _range_tombstones : list range_tombstone;
  _current_tombstone : tombstone;
  _reversed : bool
}.

(** The constructor: the comparator over the schema, the direction, and
    everything else default-constructed. *)
Definition new_accumulator (s : schema) (reversed : bool)
    : range_tombstone_accumulator :=
  mk_accumulator s no_tombstone [] no_tombstone reversed.

Definition set_range_tombstones (l : list range_tombstone)
    (acc : range_tombstone_accumulator) : range_tombstone_accumulator :=
  mk_accumulator (_cmp acc) (_partition_tombstone acc) l
                 (_current_tombstone acc) (_reversed acc).

Definition set_current_tombstone (t : tombstone)
    (acc : range_tombstone_accumulator) : range_tombstone_accumulator :=
  mk_accumulator (_cmp acc) (_partition_tombstone acc) (_range_tombstones acc)
                 t (_reversed acc).

(** Modelled from the spec: the order of positions the accumulator scans in,
    which is the schema-aware order of the comparator, reversed when
    [reversed] is set.  A position is a prefix with a weight: a bound with
    the weight of its kind, a row with weight 0. *)
Definition position_less (s : schema) (reversed : bool)
    (p1 : clustering_key_prefix) (w1 : Z)
    (p2 : clustering_key_prefix) (w2 : Z) : bool :=
  if reversed then bound_view_compare s p2 w2 p1 w1
  else bound_view_compare s p1 w1 p2 w2.

Definition bound_less (s : schema) (reversed : bool) (b1 b2 : bound_view)
    : bool :=
  position_less s reversed (prefix b1) (weight (kind b1))
                           (prefix b2) (weight (kind b2)).

(** Modelled from the spec: the end bound of the range tombstone is strictly
    before the position. *)
Definition ends_before (s : schema) (reversed : bool) (rt : range_tombstone)
    (ck : clustering_key_prefix) (w : Z) : bool :=
  position_less s reversed (end_ rt) (weight (end_kind rt)) ck w.

(** Modelled from the spec: the start bound of the range tombstone is
    strictly after the position. *)
Definition starts_after (s : schema) (reversed : bool) (rt : range_tombstone)
    (ck : clustering_key_prefix) (w : Z) : bool :=
  position_less s reversed ck w (start rt) (weight (start_kind rt)).

(** Modelled from the spec: the range of the tombstone covers the position:
    the position is neither before its start bound nor after its end
    bound. *)
Definition covers (s : schema) (reversed : bool) (rt : range_tombstone)
    (ck : clustering_key_prefix) (w : Z) : bool :=
  negb (starts_after s reversed rt ck w) && negb (ends_before s reversed rt ck w).

(** Modelled from the spec: the body of [update_current_tombstone], which
    the header only declares: the partition tombstone takes part in the
    maximum alongside any buffered range tombstone. *)
Definition update_current_tombstone (acc : range_tombstone_accumulator)
    : range_tombstone_accumulator :=
  set_current_tombstone
    (fold_left (fun t rt => tombstone_apply t (tomb rt))
               (_range_tombstones acc) (_partition_tombstone acc))
    acc.

(** Modelled from the spec: the body of [drop_unneeded_tombstones], which
    the header only declares: every buffered entry whose end bound is
    strictly before the position is pruned; the current tombstone becomes
    the maximum among the partition tombstone and the tombstone of the
    buffered entry whose range still covers the position. *)
Definition drop_unneeded_tombstones (acc : range_tombstone_accumulator)
    (ck : clustering_key_prefix) (w : Z) : range_tombstone_accumulator :=
  let s := _cmp acc in
  let reversed := _reversed acc in
  let kept :=
    filter (fun rt => negb (ends_before s reversed rt ck w))
           (_range_tombstones acc) in
  let covering := filter (fun rt => covers s reversed rt ck w) kept in
  set_current_tombstone
    (fold_left (fun t rt => tombstone_apply t (tomb rt))
               covering (_partition_tombstone acc))
    (set_range_tombstones kept acc).

(** [set_partition_tombstone]. *)
Definition set_partition_tombstone (acc : range_tombstone_accumulator)
    (t : tombstone) : range_tombstone_accumulator :=
  update_current_tombstone
    (mk_accumulator (_cmp acc) t (_range_tombstones acc)
                    (_current_tombstone acc) (_reversed acc)).

(** [get_partition_tombstone]. *)
Definition get_partition_tombstone (acc : range_tombstone_accumulator)
    : tombstone :=
  _partition_tombstone acc.

(** [tombstone_for_row]: the tombstone returned and the accumulator after
    the call. *)
Definition tombstone_for_row (acc : range_tombstone_accumulator)
    (ck : clustering_key_prefix) : tombstone * range_tombstone_accumulator :=
  let acc := drop_unneeded_tombstones acc ck 0 in
  (_current_tombstone acc, acc).

(** Modelled from the spec: the first part of [rt] split at the bound [b]:
    it ends on [b]'s prefix with the complementary kind, so that it abuts
    the part that starts at [b]. *)
Definition part_before (rt : range_tombstone) (b : bound_view)
    : range_tombstone :=
  mk_range_tombstone (start rt) (start_kind rt)
                     (prefix b) (invert_kind (kind b)) (tomb rt).

(** Modelled from the spec: the second part of [rt] split at the bound
    [b]: it starts at [b]. *)
Definition part_from (rt : range_tombstone) (b : bound_view)
    : range_tombstone :=
  mk_range_tombstone (prefix b) (kind b) (end_ rt) (end_kind rt) (tomb rt).

(** Modelled from the spec: one merge of a same-start pair inside the
    accumulator's [apply].  The pair is merged by the merge of
    [range_tombstone::apply]; the merged piece is buffered, and the
    remainder, if any, walks on through the later entries [es]. *)
Definition merge_and_walk (less : bound_view -> bound_view -> bool)
    (walk_on : range_tombstone -> list range_tombstone)
    (es : list range_tombstone) (this src : range_tombstone)
    : list range_tombstone :=
  let merged := merge_same_start less this src in
  fst merged :: match snd merged with
                | Some r => walk_on r
                | None => es
                end.

(** Modelled from the spec: the overlap resolution of the accumulator's
    [apply], which the header only declares.  The new range tombstone walks
    the buffered entries in order.  An entry that ends at or before its
    start is passed; an entry that starts at or after its end stops the
    walk.  An entry that intersects it is first brought to the same start:
    the one that starts earlier is split at the later start and its first
    part is kept as it is.  The same-start pair is merged under the order
    the accumulator scans in (for a forward scan, as
    [range_tombstone_apply s] does), the buffered entry being [this]. *)
Fixpoint insert_resolving (s : schema) (reversed : bool)
    (rt : range_tombstone) (buffered : list range_tombstone)
    : list range_tombstone :=
  match buffered with
  | [] => [rt]
  | e :: es =>
      let merge :=
        merge_and_walk (bound_less s reversed)
                       (fun r => insert_resolving s reversed r es) es in
      if negb (bound_less s reversed (start_bound rt) (end_bound e))
      then e :: insert_resolving s reversed rt es
      else if negb (bound_less s reversed (start_bound e) (end_bound rt))
      then rt :: e :: es
      else if bound_less s reversed (start_bound e) (start_bound rt)
      then part_before e (start_bound rt)
           :: merge (part_from e (start_bound rt)) rt
      else if bound_less s reversed (start_bound rt) (start_bound e)
      then part_before rt (start_bound e)
           :: merge e (part_from rt (start_bound e))
      else merge e rt
  end.

(** Modelled from the spec: the body of the accumulator's [apply], which the
    header only declares: the range tombstone enters the buffer with every
    overlap resolved; the current tombstone is left as it is. *)
Definition accumulator_apply (acc : range_tombstone_accumulator)
    (rt : range_tombstone) : range_tombstone_accumulator :=
  set_range_tombstones
    (insert_resolving (_cmp acc) (_reversed acc) rt (_range_tombstones acc))
    acc.

(** Modelled from the spec: the body of [clear], which the header only
    declares: the buffer is emptied and the current tombstone reset to a
    fresh default. *)
Definition clear (acc : range_tombstone_accumulator)
    : range_tombstone_accumulator :=
  set_current_tombstone no_tombstone (set_range_tombstones [] acc).

(** The calls a scan makes on its accumulator. *)
Inductive operation : Type :=
| op_set_partition_tombstone (t : tombstone)
| op_apply (rt : range_tombstone)
| op_tombstone_for_row (ck : clustering_key_prefix)
| op_clear.

Definition step (acc : range_tombstone_accumulator) (o : operation)
    : range_tombstone_accumulator :=
  match o with
  | op_set_partition_tombstone t => set_partition_tombstone acc t
  | op_apply rt => accumulator_apply acc rt
  | op_tombstone_for_row ck => snd (tombstone_for_row acc ck)
  | op_clear => clear acc
  end.

Definition run (acc : range_tombstone_accumulator) (ops : list operation)
    : range_tombstone_accumulator :=
  fold_left step ops acc.

(** ** The invariant of the buffer *)






(** ** Example values *)

Definition example_schema : schema := mk_schema [bytes_type; bytes_type].

Definition c1 : clustering_key_prefix := [[x01]].
Definition c2 : clustering_key_prefix := [[x02]].
Definition c3 : clustering_key_prefix := [[x03]].
Definition c4 : clustering_key_prefix := [[x04]].

Definition T0 : tombstone := mk_tombstone 10 0.
Definition T1 : tombstone := mk_tombstone 11 0.
Definition T2 : tombstone := mk_tombstone 12 0.

Definition RT1 : range_tombstone := range_tombstone_of_prefixes c1 c3 T1.
Definition RT2 : range_tombstone := range_tombstone_of_prefixes c2 c4 T2.

(** A range tombstone that starts where [RT1] starts and goes further, and
    one on a single prefix that is not a full key of the example schema. *)
Definition RT3 : range_tombstone := range_tombstone_of_prefixes c1 c4 T0.
Definition PT1 : range_tombstone := range_tombstone_of_prefixes c1 c1 T1.

(** A full key of the example schema and the range tombstone on that key
    alone. *)
Definition k12 : clustering_key_prefix := [[x01]; [x02]].
Definition FT1 : range_tombstone := range_tombstone_of_prefixes k12 k12 T1.

(** * Properties *)

(** ** Column types *)

Lemma sgn_opp_cases (u v : Z) :
  Z.sgn u = - Z.sgn v ->
  (u < 0 <-> 0 < v) /\ (u = 0 <-> v = 0) /\ (0 < u <-> v < 0).
Proof.
  intros H.
  destruct (Z.sgn_spec u) as [[? Hu]|[[? Hu]|[? Hu]]];
  destruct (Z.sgn_spec v) as [[? Hv]|[[? Hv]|[? Hv]]];
  rewrite Hu, Hv in H; lia.
Qed.

Lemma type_compare_refl (t : data_type) (a : bytes) :
  valid_type t -> type_compare t a a = 0.
Proof.
  intros V. pose proof (type_compare_antisym t V a a) as H.
  apply sgn_opp_cases in H. lia.
Qed.

(** What a valid three-way comparison gives on three values. *)
Lemma type_compare_chain (t : data_type) (a b c : bytes) :
  valid_type t ->
  let x := type_compare t a b in
  let y := type_compare t b c in
  let z := type_compare t a c in
  (x <= 0 -> y <= 0 -> z <= 0) /\ (0 <= x -> 0 <= y -> 0 <= z) /\
  (x < 0 -> y <= 0 -> z < 0) /\ (x <= 0 -> y < 0 -> z < 0) /\
  (0 < x -> 0 <= y -> 0 < z) /\ (0 <= x -> 0 < y -> 0 < z).
Proof.
  intros V x y z.
  pose proof (sgn_opp_cases _ _ (type_compare_antisym t V a b)) as Hab.
  pose proof (sgn_opp_cases _ _ (type_compare_antisym t V b c)) as Hbc.
  pose proof (sgn_opp_cases _ _ (type_compare_antisym t V a c)) as Hac.
  pose proof (type_compare_trans t V a b c) as T1.
  pose proof (type_compare_trans t V c b a) as T2.
  pose proof (type_compare_trans t V b c a) as T3.
  pose proof (type_compare_trans t V c a b) as T4.
  pose proof (type_compare_trans t V a c b) as T5.
  pose proof (type_compare_trans t V b a c) as T6.
  subst x y z. lia.
Qed.

Lemma compare_unsigned_antisym (a b : bytes) :
  Z.sgn (compare_unsigned b a) = - Z.sgn (compare_unsigned a b).
Proof.
  revert b. induction a as [|x a IH]; intros [|y b]; simpl; try reflexivity.
  rewrite (N.compare_antisym (to_N x) (to_N y)).
  destruct (N.compare (to_N x) (to_N y)); simpl; auto.
Qed.

Lemma compare_unsigned_trans (a b c : bytes) :
  compare_unsigned a b <= 0 -> compare_unsigned b c <= 0 ->
  compare_unsigned a c <= 0.
Proof.
  revert b c. induction a as [|x a IH]; intros [|y b] [|z c]; simpl; try lia.
  destruct (N.compare_spec (to_N x) (to_N y));
  destruct (N.compare_spec (to_N y) (to_N z));
  destruct (N.compare_spec (to_N x) (to_N z)); try lia.
  apply IH.
Qed.

Lemma bytes_type_valid : valid_type bytes_type.
Proof.
  constructor; simpl.
  - intros a b. apply compare_unsigned_antisym.
  - intros a b c. apply compare_unsigned_trans.
Qed.

(** ** The comparator is a strict weak order *)

Ltac bool_cases :=
  repeat match goal with
  | |- context [Z.ltb ?a ?b] => destruct (Z.ltb_spec a b)
  | |- context [Z.leb ?a ?b] => destruct (Z.leb_spec a b)
  | |- context [Z.eqb ?a ?b] => destruct (Z.eqb_spec a b)
  | |- context [Nat.eqb ?a ?b] => destruct (Nat.eqb_spec a b)
  | |- context [Nat.ltb ?a ?b] => destruct (Nat.ltb_spec a b)
  | H : context [Z.ltb ?a ?b] |- _ => destruct (Z.ltb_spec a b)
  | H : context [Z.leb ?a ?b] |- _ => destruct (Z.leb_spec a b)
  | H : context [Z.eqb ?a ?b] |- _ => destruct (Z.eqb_spec a b)
  | H : context [Nat.eqb ?a ?b] |- _ => destruct (Nat.eqb_spec a b)
  | H : context [Nat.ltb ?a ?b] |- _ => destruct (Nat.ltb_spec a b)
  end; simpl in *.

Lemma compare_cons (t : data_type) (ts : list data_type)
    (v1 v2 : bytes) (r1 r2 : clustering_key_prefix) (w1 w2 : Z) :
  bound_view_compare (mk_schema (t :: ts)) (v1 :: r1) w1 (v2 :: r2) w2 =
  if type_compare t v1 v2 =? 0
  then bound_view_compare (mk_schema ts) r1 w1 r2 w2
  else type_compare t v1 v2 <? 0.
Proof.
  unfold bound_view_compare. simpl. unfold tri_compare.
  destruct (Z.eqb_spec (type_compare t v1 v2) 0) as [E|E]; simpl.
  - reflexivity.
  - destruct (Z.eqb_spec (type_compare t v1 v2) 0); [contradiction|reflexivity].
Qed.

Lemma compare_by_size (ts : list data_type) (p1 p2 : clustering_key_prefix)
    (w1 w2 : Z) :
  ts = [] \/ p1 = [] \/ p2 = [] ->
  bound_view_compare (mk_schema ts) p1 w1 p2 w2 =
  if Nat.eqb (size p1) (size p2) then w1 <? w2
  else if Nat.ltb (size p1) (size p2) then w1 <=? 0 else 0 <? w2.
Proof.
  intros H. unfold bound_view_compare. simpl.
  replace (prefix_equality_tri_compare ts p1 p2) with 0; [reflexivity|].
  destruct H as [->|[->| ->]].
  - destruct p1, p2; reflexivity.
  - reflexivity.
  - destruct p1; reflexivity.
Qed.

Ltac by_size :=
  repeat first
    [ rewrite (compare_by_size []) by auto
    | rewrite (compare_by_size _ []) by auto
    | rewrite (fun ts p1 w1 w2 => compare_by_size ts p1 [] w1 w2) by auto ];
  unfold size; simpl.

Lemma compare_asym (ts : list data_type) :
  Forall valid_type ts ->
  forall p1 w1 p2 w2,
    bound_view_compare (mk_schema ts) p1 w1 p2 w2 = true ->
    bound_view_compare (mk_schema ts) p2 w2 p1 w1 = false.
Proof.
  induction 1 as [|t ts V Vs IH]; intros p1 w1 p2 w2.
  - by_size. bool_cases; intros; lia || congruence.
  - destruct p1 as [|v1 r1], p2 as [|v2 r2];
      try (by_size; bool_cases; intros; lia || congruence).
    rewrite !compare_cons.
    pose proof (sgn_opp_cases _ _ (type_compare_antisym t V v1 v2)).
    bool_cases; intros; try (lia || congruence). now apply IH.
Qed.

Lemma compare_negtrans (ts : list data_type) :
  Forall valid_type ts ->
  forall p1 w1 p2 w2 p3 w3,
    bound_view_compare (mk_schema ts) p1 w1 p2 w2 = false ->
    bound_view_compare (mk_schema ts) p2 w2 p3 w3 = false ->
    bound_view_compare (mk_schema ts) p1 w1 p3 w3 = false.
Proof.
  induction 1 as [|t ts V Vs IH]; intros p1 w1 p2 w2 p3 w3.
  - by_size. bool_cases; intros; lia || congruence.
  - destruct p1 as [|v1 r1], p2 as [|v2 r2], p3 as [|v3 r3];
      try (rewrite ?compare_cons; by_size;
           bool_cases; intros; lia || congruence).
    rewrite !compare_cons.
    pose proof (type_compare_chain t v1 v2 v3 V) as C. simpl in C.
    bool_cases; intros; try (lia || congruence). eapply IH; eauto.
Qed.

Lemma schema_eta (s : schema) : s = mk_schema (clustering_key_prefix_type s).
Proof. destruct s; reflexivity. Qed.

Lemma bound_view_compare_asym (s : schema) p1 w1 p2 w2 :
  valid_schema s ->
  bound_view_compare s p1 w1 p2 w2 = true ->
  bound_view_compare s p2 w2 p1 w1 = false.
Proof.
  rewrite (schema_eta s). unfold valid_schema. simpl.
  intros V. now apply compare_asym.
Qed.

Lemma bound_view_compare_negtrans (s : schema) p1 w1 p2 w2 p3 w3 :
  valid_schema s ->
  bound_view_compare s p1 w1 p2 w2 = false ->
  bound_view_compare s p2 w2 p3 w3 = false ->
  bound_view_compare s p1 w1 p3 w3 = false.
Proof.
  rewrite (schema_eta s). unfold valid_schema. simpl.
  intros V. now apply compare_negtrans.
Qed.

Lemma bound_view_compare_irrefl (s : schema) p w :
  valid_schema s -> bound_view_compare s p w p w = false.
Proof.
  intros V. destruct (bound_view_compare s p w p w) eqn:E; [|reflexivity].
  rewrite <- E. now apply bound_view_compare_asym.
Qed.

Lemma bound_view_compare_trans (s : schema) p1 w1 p2 w2 p3 w3 :
  valid_schema s ->
  bound_view_compare s p1 w1 p2 w2 = true ->
  bound_view_compare s p2 w2 p3 w3 = true ->
  bound_view_compare s p1 w1 p3 w3 = true.
Proof.
  intros V H12 H23.
  destruct (bound_view_compare s p1 w1 p3 w3) eqn:H13; [reflexivity|].
  apply (bound_view_compare_asym s _ _ _ _ V) in H23.
  pose proof (bound_view_compare_negtrans s _ _ _ _ _ _ V H13 H23).
  congruence.
Qed.

(** ** Prefix equality *)

Lemma prefix_tri_compare_antisym (ts : list data_type) :
  Forall valid_type ts ->
  forall p1 p2,
    Z.sgn (prefix_equality_tri_compare ts p2 p1) =
    - Z.sgn (prefix_equality_tri_compare ts p1 p2).
Proof.
  induction 1 as [|t ts V Vs IH]; intros [|v1 r1] [|v2 r2]; simpl;
    try reflexivity.
  unfold tri_compare.
  pose proof (type_compare_antisym t V v1 v2) as A.
  pose proof (sgn_opp_cases _ _ A).
  bool_cases; try lia; auto.
Qed.

Lemma prefix_tri_compare_extension (ts : list data_type) :
  Forall valid_type ts ->
  forall p q, prefix_equality_tri_compare ts p (p ++ q) = 0.
Proof.
  induction 1 as [|t ts V Vs IH]; intros [|v r] q; simpl; try reflexivity.
  unfold tri_compare. rewrite (type_compare_refl t v V). simpl. apply IH.
Qed.

Lemma prefix_equal_refl (s : schema) (p : clustering_key_prefix) :
  valid_schema s -> prefix_equal s p p = true.
Proof.
  intros V. unfold prefix_equal. rewrite Nat.eqb_refl. simpl.
  pose proof (prefix_tri_compare_extension _ V p []) as H.
  rewrite app_nil_r in H. rewrite H. reflexivity.
Qed.

Lemma prefix_equal_sym (s : schema) (p1 p2 : clustering_key_prefix) :
  valid_schema s -> prefix_equal s p1 p2 = prefix_equal s p2 p1.
Proof.
  intros V. unfold prefix_equal. rewrite (Nat.eqb_sym (size p1)). f_equal.
  pose proof (sgn_opp_cases _ _ (prefix_tri_compare_antisym _ V p1 p2)).
  bool_cases; lia || reflexivity.
Qed.

(** On schema-equal prefixes the weights decide. *)
Lemma compare_on_equal_prefixes (s : schema) p1 w1 p2 w2 :
  prefix_equal s p1 p2 = true ->
  bound_view_compare s p1 w1 p2 w2 = (w1 <? w2).
Proof.
  unfold prefix_equal, bound_view_compare. simpl.
  intros H. apply andb_true_iff in H. destruct H as [Hd Hr].
  rewrite Hr, Hd. reflexivity.
Qed.

Lemma bound_kind_eqb_eq (k1 k2 : bound_kind) :
  bound_kind_eqb k1 k2 = true <-> k1 = k2.
Proof. destruct k1, k2; cbv; split; intros H; congruence. Qed.

Lemma weight_invert_kind (k : bound_kind) : weight (invert_kind k) = weight k.
Proof. destruct k; reflexivity. Qed.

Lemma invert_kind_involutive (k : bound_kind) : invert_kind (invert_kind k) = k.
Proof. destruct k; reflexivity. Qed.

Lemma flip_bound_kind_involutive (k : bound_kind) :
  flip_bound_kind (flip_bound_kind k) = k.
Proof. destruct k; reflexivity. Qed.

(** C4.  For a fixed schema whose column comparisons are three-way
    comparisons, the comparator on (prefix, weight) pairs is a strict weak
    order: no pair is before itself, the comparator is transitive, being
    incomparable is transitive, and two bounds that are [equal] are
    incomparable. *)
Theorem bound_view_compare_strict_weak_order (s : schema) :
  valid_schema s ->
  (forall p w, bound_view_compare s p w p w = false) /\
  (forall p1 w1 p2 w2 p3 w3,
     bound_view_compare s p1 w1 p2 w2 = true ->
     bound_view_compare s p2 w2 p3 w3 = true ->
     bound_view_compare s p1 w1 p3 w3 = true) /\
  (forall p1 w1 p2 w2 p3 w3,
     bound_view_compare s p1 w1 p2 w2 = false /\
     bound_view_compare s p2 w2 p1 w1 = false ->
     bound_view_compare s p2 w2 p3 w3 = false /\
     bound_view_compare s p3 w3 p2 w2 = false ->
     bound_view_compare s p1 w1 p3 w3 = false /\
     bound_view_compare s p3 w3 p1 w1 = false) /\
  (forall b1 b2,
     bound_equal s b1 b2 = true ->
     compare_bounds s b1 b2 = false /\ compare_bounds s b2 b1 = false).
Proof.
  intros V. repeat split.
  - intros. now apply bound_view_compare_irrefl.
  - intros. eapply bound_view_compare_trans; eauto.
  - destruct H, H0. eapply bound_view_compare_negtrans; eauto.
  - destruct H, H0. eapply bound_view_compare_negtrans; eauto.
  - unfold bound_equal in H. apply andb_true_iff in H. destruct H as [Hk Hp].
    apply bound_kind_eqb_eq in Hk. unfold compare_bounds.
    rewrite (compare_on_equal_prefixes s _ _ _ _ Hp), Hk. apply Z.ltb_irrefl.
  - unfold bound_equal in H. apply andb_true_iff in H. destruct H as [Hk Hp].
    apply bound_kind_eqb_eq in Hk. unfold compare_bounds.
    rewrite (prefix_equal_sym s _ _ V) in Hp.
    rewrite (compare_on_equal_prefixes s _ _ _ _ Hp), Hk. apply Z.ltb_irrefl.
Qed.

(** ** Prefixes of different lengths *)

Lemma compare_extension_l (s : schema) p x q w1 w2 :
  valid_schema s ->
  bound_view_compare s p w1 (p ++ x :: q) w2 = (w1 <=? 0).
Proof.
  intros V. unfold bound_view_compare. simpl.
  rewrite (prefix_tri_compare_extension _ V). simpl.
  unfold size. rewrite length_app. simpl.
  destruct (Nat.eqb_spec (length p) (length p + S (length q))); [lia|].
  destruct (Nat.ltb_spec (length p) (length p + S (length q))); [reflexivity|lia].
Qed.

Lemma compare_extension_r (s : schema) p x q w1 w2 :
  valid_schema s ->
  bound_view_compare s (p ++ x :: q) w1 p w2 = (0 <? w2).
Proof.
  intros V. unfold bound_view_compare. simpl.
  pose proof (sgn_opp_cases _ _
    (prefix_tri_compare_antisym _ V p (p ++ x :: q))) as A.
  rewrite (prefix_tri_compare_extension _ V) in A.
  replace (prefix_equality_tri_compare (clustering_key_prefix_type s)
             (p ++ x :: q) p) with 0 by lia. simpl.
  unfold size. rewrite length_app. simpl.
  destruct (Nat.eqb_spec (length p + S (length q)) (length p)); [lia|].
  destruct (Nat.ltb_spec (length p + S (length q)) (length p)); [lia|reflexivity].
Qed.

(** C5.  A bound on a prefix [p] with an inclusive start sorts strictly
    before the inclusive start bound on any one-component extension of [p],
    which in turn sorts strictly before the inclusive end bound on [p]; more
    generally a start-like bound on the shorter prefix is before, and an
    end-like bound on the shorter prefix after, any bound on the
    extension. *)
Theorem shorter_prefix_tie_break (s : schema) (p : clustering_key_prefix)
    (x : bytes) :
  valid_schema s ->
  compare_bounds s (mk_bound_view p incl_start)
                   (mk_bound_view (p ++ [x]) incl_start) = true /\
  compare_bounds s (mk_bound_view (p ++ [x]) incl_start)
                   (mk_bound_view p incl_end) = true /\
  (forall k k', start_like k = true ->
     compare_bounds s (mk_bound_view p k) (mk_bound_view (p ++ [x]) k') = true /\
     compare_bounds s (mk_bound_view (p ++ [x]) k') (mk_bound_view p k) = false) /\
  (forall k k', end_like k = true ->
     compare_bounds s (mk_bound_view (p ++ [x]) k') (mk_bound_view p k) = true /\
     compare_bounds s (mk_bound_view p k) (mk_bound_view (p ++ [x]) k') = false).
Proof.
  intros V. unfold compare_bounds. simpl.
  rewrite !(compare_extension_l s p x [] _ _ V).
  rewrite !(compare_extension_r s p x [] _ _ V).
  repeat split; try reflexivity.
  - rewrite (compare_extension_l s p x [] _ _ V).
    destruct k; cbv in *; congruence.
  - rewrite (compare_extension_r s p x [] _ _ V).
    destruct k; cbv in *; congruence.
  - rewrite (compare_extension_r s p x [] _ _ V).
    destruct k; cbv in *; congruence.
  - rewrite (compare_extension_l s p x [] _ _ V).
    destruct k; cbv in *; congruence.
Qed.


(** C10.  A bare prefix, compared at weight 0, is strictly after the
    start-like bounds and strictly before the end-like bounds that carry a
    schema-equal prefix; so a range with an inclusive start and an inclusive
    end on that prefix covers the row, and one with an exclusive start or an
    exclusive end there does not. *)
Theorem bare_prefix_between_bounds (s : schema) (p q : clustering_key_prefix) :
  valid_schema s ->
  prefix_equal s q p = true ->
  (compare_bound_prefix s (mk_bound_view q incl_start) p = true /\
   compare_bound_prefix s (mk_bound_view q excl_end) p = true /\
   compare_prefix_bound s p (mk_bound_view q incl_end) = true /\
   compare_prefix_bound s p (mk_bound_view q excl_start) = true) /\
  (compare_prefix_bound s p (mk_bound_view q incl_start) = false /\
   compare_prefix_bound s p (mk_bound_view q excl_end) = false /\
   compare_bound_prefix s (mk_bound_view q incl_end) p = false /\
   compare_bound_prefix s (mk_bound_view q excl_start) p = false) /\
  (forall t,
     covers s false (mk_range_tombstone q incl_start q incl_end t) p 0 = true /\
     covers s false (mk_range_tombstone q excl_start q incl_end t) p 0 = false /\
     covers s false (mk_range_tombstone q incl_start q excl_end t) p 0 = false).
Proof.
  intros V E. pose proof E as E'. rewrite (prefix_equal_sym s _ _ V) in E'.
  unfold covers, starts_after, ends_before, position_less,
    compare_bound_prefix, compare_prefix_bound. simpl.
  rewrite !(compare_on_equal_prefixes s _ _ _ _ E).
  rewrite !(compare_on_equal_prefixes s _ _ _ _ E').
  repeat split; reflexivity.
Qed.

(** ** Flip *)

Lemma tombstone_eqb_refl (t : tombstone) : tombstone_eqb t t = true.
Proof. unfold tombstone_eqb. now rewrite !Z.eqb_refl. Qed.

Lemma bound_equal_refl (s : schema) (b : bound_view) :
  valid_schema s -> bound_equal s b b = true.
Proof.
  intros V. unfold bound_equal. rewrite (prefix_equal_refl s _ V).
  rewrite (proj2 (bound_kind_eqb_eq _ _) eq_refl). reflexivity.
Qed.

(** C7.  Flipping a range tombstone twice gives it back, also under
    [equal] of the schema; one flip puts the end prefix at the start and the
    start prefix at the end, makes the start kind the direction-flip of the
    former end kind and the end kind the direction-flip of the former start
    kind, and leaves the tombstone.  The direction-flip keeps whether the
    bound is inclusive and swaps start and end: an end kind at the end
    becomes the start kind of the same inclusiveness at the start, and a
    start kind at the start the end kind of the same inclusiveness at the
    end; no kind is its own direction-flip. *)
Theorem flip_involution (s : schema) (rt : range_tombstone) :
  valid_schema s ->
  flip (flip rt) = rt /\
  range_tombstone_equal s (flip (flip rt)) rt = true /\
  start (flip rt) = end_ rt /\
  end_ (flip rt) = start rt /\
  start_kind (flip rt) = flip_bound_kind (end_kind rt) /\
  end_kind (flip rt) = flip_bound_kind (start_kind rt) /\
  tomb (flip rt) = tomb rt /\
  start_kind (flip rt) =
    match end_kind rt with
    | excl_end => excl_start
    | incl_end => incl_start
    | excl_start => excl_end
    | incl_start => incl_end
    end /\
  end_kind (flip rt) =
    match start_kind rt with
    | excl_end => excl_start
    | incl_end => incl_start
    | excl_start => excl_end
    | incl_start => incl_end
    end /\
  start_kind (flip rt) <> end_kind rt /\
  end_kind (flip rt) <> start_kind rt.
Proof.
  intros V.
  assert (F : flip (flip rt) = rt).
  { destruct rt as [a ka b kb t]. unfold flip. simpl.
    now rewrite !flip_bound_kind_involutive. }
  split; [exact F|]. split.
  { rewrite F. unfold range_tombstone_equal.
    now rewrite tombstone_eqb_refl, !(bound_equal_refl s _ V). }
  destruct rt as [a ka b kb t]. unfold flip. simpl.
  repeat split; try (destruct ka; discriminate); try (destruct kb; discriminate);
    try (destruct ka; reflexivity); try (destruct kb; reflexivity).
Qed.

(** ** Adjacency *)

(** C8.  Adjacency of two bounds does not depend on which of them it is
    asked of, and it holds exactly when the prefixes are schema-equal and
    each kind is the complement of the other. *)
Theorem adjacent_symmetric (s : schema) (a b : bound_view) :
  valid_schema s ->
  adjacent s a b = adjacent s b a /\
  (adjacent s a b = true <->
   prefix_equal s (prefix a) (prefix b) = true /\
   kind a = invert_kind (kind b) /\ kind b = invert_kind (kind a)).
Proof.
  intros V. unfold adjacent. rewrite (prefix_equal_sym s (prefix b) _ V).
  split.
  - f_equal. destruct (kind a), (kind b); reflexivity.
  - rewrite andb_true_iff, bound_kind_eqb_eq. split.
    + intros [K E]. rewrite <- K, invert_kind_involutive. auto.
    + intros [E [K _]]. auto.
Qed.

(** ** Hashing *)

(** C9.  [feed_hash] feeds the start prefix first and the tombstone last;
    between them it feeds the start kind, the end prefix and the end kind,
    unless the start is schema-equal to the end, the start kind is
    [incl_start] and the end kind is [incl_end].  Whether the start prefix
    is a full clustering key plays no part: a range of that form on a prefix
    that is not full is not a single-row tombstone and still has the three
    fields left out. *)
Theorem feed_hash_sequence (s : schema) (rt : range_tombstone) (h : hasher) :
  feed_hash s rt h =
    h ++ [hashed_prefix (start rt)]
      ++ (if prefix_equal s (start rt) (end_ rt)
             && bound_kind_eqb (start_kind rt) incl_start
             && bound_kind_eqb (end_kind rt) incl_end
          then []
          else [hashed_kind (start_kind rt); hashed_prefix (end_ rt);
                hashed_kind (end_kind rt)])
      ++ [hashed_tombstone (tomb rt)] /\
  (prefix_equal s (start rt) (end_ rt) = true ->
   start_kind rt = incl_start -> end_kind rt = incl_end ->
   is_full s (start rt) = false ->
   is_single_clustering_row_tombstone s (start rt) (start_kind rt)
                                        (end_ rt) (end_kind rt) = false /\
   feed_hash s rt h = h ++ [hashed_prefix (start rt); hashed_tombstone (tomb rt)]).
Proof.
  unfold feed_hash, feed, is_single_clustering_row_tombstone. split.
  - destruct (prefix_equal s (start rt) (end_ rt)),
             (bound_kind_eqb (start_kind rt) incl_start),
             (bound_kind_eqb (end_kind rt) incl_end); simpl;
      rewrite <- ?app_assoc; reflexivity.
  - intros E Ks Ke F. rewrite E, Ks, Ke, F. simpl.
    rewrite <- app_assoc. split; reflexivity.
Qed.

(** ** Rows and bounds *)

(** A position of non-zero weight and a row are never incomparable. *)
Lemma compare_row_total (ts : list data_type) :
  Forall valid_type ts ->
  forall p w ck, w <> 0 ->
    bound_view_compare (mk_schema ts) p w ck 0 = false ->
    bound_view_compare (mk_schema ts) ck 0 p w = true.
Proof.
  induction 1 as [|t ts V Vs IH]; intros p w ck W.
  - by_size. bool_cases; intros; lia || congruence.
  - destruct p as [|v1 r1], ck as [|v2 r2];
      try (by_size; bool_cases; intros; lia || congruence).
    rewrite !compare_cons.
    pose proof (sgn_opp_cases _ _ (type_compare_antisym t V v1 v2)).
    bool_cases; intros; try (lia || congruence). now apply IH.
Qed.

Lemma bound_view_compare_row_total (s : schema) p w ck :
  valid_schema s -> w <> 0 ->
  bound_view_compare s p w ck 0 = false ->
  bound_view_compare s ck 0 p w = true.
Proof.
  rewrite (schema_eta s). unfold valid_schema. simpl.
  intros V. now apply compare_row_total.
Qed.

Lemma weight_nonzero (k : bound_kind) : weight k <> 0.
Proof. destruct k; simpl; lia. Qed.

Lemma position_less_row_total (s : schema) (reversed : bool) p w ck :
  valid_schema s -> w <> 0 ->
  position_less s reversed p w ck 0 = false ->
  position_less s reversed ck 0 p w = true.
Proof.
  intros V W. unfold position_less. destruct reversed.
  - intros H.
    destruct (bound_view_compare s p w ck 0) eqn:E; [reflexivity|].
    rewrite (bound_view_compare_row_total s _ _ _ V W E) in H. discriminate.
  - now apply bound_view_compare_row_total.
Qed.

(** A range tombstone that starts where another ends, with the
    complementary kind, shares no row with it. *)
Lemma complementary_parts_disjoint (s : schema) (reversed : bool)
    (a r : range_tombstone) (ck : clustering_key_prefix) :
  valid_schema s ->
  start r = end_ a -> start_kind r = invert_kind (end_kind a) ->
  covers s reversed a ck 0 && covers s reversed r ck 0 = false.
Proof.
  intros V Es Ek. unfold covers, starts_after, ends_before.
  rewrite Es, Ek, weight_invert_kind.
  destruct (position_less s reversed (end_ a) (weight (end_kind a)) ck 0)
    eqn:E1; simpl; [now rewrite andb_false_r|].
  rewrite (position_less_row_total s _ _ _ _ V (weight_nonzero _) E1).
  simpl. apply andb_false_r.
Qed.

(** ** The merge of two range tombstones with the same start *)

(** C2.  After [A.apply(B)] on two range tombstones with equal start
    bounds: [A] carries the tombstone of strictly higher priority, its own
    on equal timestamps; its start bound is unchanged and its end bound is
    the smaller of the two end bounds; when the loser's end bound is
    strictly beyond that end, the remainder starts there with the
    complementary, adjacent kind, ends where the loser ended, carries the
    loser's tombstone and covers no row that the truncated [A] covers;
    otherwise there is no remainder. *)
Theorem range_tombstone_apply_correct (s : schema) (A B : range_tombstone) :
  valid_schema s ->
  bound_equal s (start_bound A) (start_bound B) = true ->
  let A' := fst (range_tombstone_apply s A B) in
  let remainder := snd (range_tombstone_apply s A B) in
  let loser := if timestamp (tomb A) <? timestamp (tomb B) then A else B in
  tomb A' = (if timestamp (tomb A) <? timestamp (tomb B)
             then tomb B else tomb A) /\
  start_bound A' = start_bound A /\
  (end_bound A' = end_bound A \/ end_bound A' = end_bound B) /\
  compare_bounds s (end_bound A) (end_bound A') = false /\
  compare_bounds s (end_bound B) (end_bound A') = false /\
  (compare_bounds s (end_bound A') (end_bound loser) = true ->
   exists r,
     remainder = Some r /\
     start r = end_ A' /\
     start_kind r = invert_kind (end_kind A') /\
     adjacent s (start_bound r) (end_bound A') = true /\
     end_bound r = end_bound loser /\
     tomb r = tomb loser /\
     forall ck, covers s false A' ck 0 && covers s false r ck 0 = false) /\
  (compare_bounds s (end_bound A') (end_bound loser) = false ->
   remainder = None).
Proof.
  intros V _ A' remainder loser.
  assert (Emin : end_bound A' =
                 if compare_bounds s (end_bound B) (end_bound A)
                 then end_bound B else end_bound A).
  { subst A'. unfold range_tombstone_apply, merge_same_start, end_bound. simpl.
    destruct (compare_bounds _ _ _); reflexivity. }
  assert (Erem : remainder =
                 if compare_bounds s (end_bound A') (end_bound loser)
                 then Some (mk_range_tombstone (end_ A')
                              (invert_kind (end_kind A'))
                              (end_ loser) (end_kind loser) (tomb loser))
                 else None).
  { subst remainder A' loser.
    unfold range_tombstone_apply, merge_same_start, tombstone_less. simpl.
    destruct (compare_bounds s (end_bound B) (end_bound A)); reflexivity. }
  split; [reflexivity|]. split; [reflexivity|].
  split; [rewrite Emin; destruct (compare_bounds _ _ _); auto|].
  split.
  { rewrite Emin. destruct (compare_bounds s (end_bound B) (end_bound A)) eqn:C.
    - now apply bound_view_compare_asym.
    - now apply bound_view_compare_irrefl. }
  split.
  { rewrite Emin. destruct (compare_bounds s (end_bound B) (end_bound A)) eqn:C.
    - now apply bound_view_compare_irrefl.
    - exact C. }
  split.
  - intros L. rewrite Erem, L. eexists. split; [reflexivity|]. simpl.
    repeat split.
    + unfold adjacent. simpl.
      rewrite (proj2 (bound_kind_eqb_eq _ _) eq_refl).
      now rewrite (prefix_equal_refl s _ V).
    + intros ck. now apply complementary_parts_disjoint.
  - intros L. rewrite Erem, L. reflexivity.
Qed.

(** ** The order the accumulator scans in *)

Section ScanOrder.

Variable s : schema.
Variable reversed : bool.
Hypothesis V : valid_schema s.

Local Abbreviation less := (bound_less s reversed).










(** ** The buffer stays ordered *)












End ScanOrder.

(** ** The operations of the accumulator *)








(** ** The spec's scenario on the accumulator *)

(** For a forward scan the accumulator merges exactly as
    [range_tombstone::apply] does. *)
Lemma forward_merge_is_apply (s : schema) (this src : range_tombstone) :
  merge_same_start (bound_less s false) this src =
  range_tombstone_apply s this src.
Proof. reflexivity. Qed.

(** On the rows up to [c3] the same scan returns what is expected: [T1] for
    [c1], and [T2] for [c2] and [c3]. *)
Example scenario_rows_up_to_c3 :
  let a1 :=
    run (new_accumulator example_schema false)
        [op_set_partition_tombstone T0; op_apply RT1] in
  let a2 := accumulator_apply (snd (tombstone_for_row a1 c1)) RT2 in
  let a3 := snd (tombstone_for_row a2 c2) in
  fst (tombstone_for_row a1 c1) = T1 /\
  fst (tombstone_for_row a2 c2) = T2 /\
  fst (tombstone_for_row a3 c3) = T2 /\
  _range_tombstones a2 =
    [mk_range_tombstone c1 incl_start c2 excl_end T1;
     mk_range_tombstone c2 incl_start c3 incl_end T2].
Proof. vm_compute. repeat split. Qed.

(** On row [c4] the same scan, on this model of the accumulator, returns the
    partition tombstone [T0]: after the merge of [RT2] with the part of
    [RT1] from [c2] on, the buffer holds nothing beyond [c3]. *)
Example scenario_row_c4 :
  let acc :=
    run (new_accumulator example_schema false)
        [op_set_partition_tombstone T0; op_apply RT1; op_tombstone_for_row c1;
         op_apply RT2; op_tombstone_for_row c2; op_tombstone_for_row c3] in
  _range_tombstones acc =
    [mk_range_tombstone c2 incl_start c3 incl_end T2] /\
  fst (tombstone_for_row acc c4) = T0.
Proof. vm_compute. repeat split. Qed.

(** ** Instances on the example schema *)

Lemma example_schema_valid : valid_schema example_schema.
Proof. repeat constructor; apply bytes_type_valid. Qed.

Lemma bound_view_compare_strict_weak_order_witness :
  valid_schema example_schema /\
  ((forall p w, bound_view_compare example_schema p w p w = false) /\
   (forall p1 w1 p2 w2 p3 w3,
      bound_view_compare example_schema p1 w1 p2 w2 = true ->
      bound_view_compare example_schema p2 w2 p3 w3 = true ->
      bound_view_compare example_schema p1 w1 p3 w3 = true) /\
   (forall p1 w1 p2 w2 p3 w3,
      bound_view_compare example_schema p1 w1 p2 w2 = false /\
      bound_view_compare example_schema p2 w2 p1 w1 = false ->
      bound_view_compare example_schema p2 w2 p3 w3 = false /\
      bound_view_compare example_schema p3 w3 p2 w2 = false ->
      bound_view_compare example_schema p1 w1 p3 w3 = false /\
      bound_view_compare example_schema p3 w3 p1 w1 = false) /\
   (forall b1 b2,
      bound_equal example_schema b1 b2 = true ->
      compare_bounds example_schema b1 b2 = false /\
      compare_bounds example_schema b2 b1 = false)).
Proof.
  split.
  - exact example_schema_valid.
  - exact (bound_view_compare_strict_weak_order example_schema
             example_schema_valid).
Defined.

Lemma shorter_prefix_tie_break_witness :
  valid_schema example_schema /\
  (compare_bounds example_schema (mk_bound_view c1 incl_start)
                  (mk_bound_view (c1 ++ [[x07]]) incl_start) = true /\
   compare_bounds example_schema (mk_bound_view (c1 ++ [[x07]]) incl_start)
                  (mk_bound_view c1 incl_end) = true /\
   (forall k k', start_like k = true ->
      compare_bounds example_schema (mk_bound_view c1 k)
                     (mk_bound_view (c1 ++ [[x07]]) k') = true /\
      compare_bounds example_schema (mk_bound_view (c1 ++ [[x07]]) k')
                     (mk_bound_view c1 k) = false) /\
   (forall k k', end_like k = true ->
      compare_bounds example_schema (mk_bound_view (c1 ++ [[x07]]) k')
                     (mk_bound_view c1 k) = true /\
      compare_bounds example_schema (mk_bound_view c1 k)
                     (mk_bound_view (c1 ++ [[x07]]) k') = false)).
Proof.
  split.
  - exact example_schema_valid.
  - exact (shorter_prefix_tie_break example_schema c1 [x07]
             example_schema_valid).
Defined.



Lemma bare_prefix_between_bounds_witness :
  valid_schema example_schema /\
  prefix_equal example_schema c2 c2 = true /\
  ((compare_bound_prefix example_schema (mk_bound_view c2 incl_start) c2 = true /\
    compare_bound_prefix example_schema (mk_bound_view c2 excl_end) c2 = true /\
    compare_prefix_bound example_schema c2 (mk_bound_view c2 incl_end) = true /\
    compare_prefix_bound example_schema c2 (mk_bound_view c2 excl_start) = true) /\
   (compare_prefix_bound example_schema c2 (mk_bound_view c2 incl_start) = false /\
    compare_prefix_bound example_schema c2 (mk_bound_view c2 excl_end) = false /\
    compare_bound_prefix example_schema (mk_bound_view c2 incl_end) c2 = false /\
    compare_bound_prefix example_schema (mk_bound_view c2 excl_start) c2 = false) /\
   (forall t,
      covers example_schema false
             (mk_range_tombstone c2 incl_start c2 incl_end t) c2 0 = true /\
      covers example_schema false
             (mk_range_tombstone c2 excl_start c2 incl_end t) c2 0 = false /\
      covers example_schema false
             (mk_range_tombstone c2 incl_start c2 excl_end t) c2 0 = false)).
Proof.
  split; [exact example_schema_valid|]. split; [reflexivity|].
  exact (bare_prefix_between_bounds example_schema c2 c2
           example_schema_valid eq_refl).
Defined.

Lemma flip_involution_witness :
  valid_schema example_schema /\
  (flip (flip RT1) = RT1 /\
   range_tombstone_equal example_schema (flip (flip RT1)) RT1 = true /\
   start (flip RT1) = end_ RT1 /\
   end_ (flip RT1) = start RT1 /\
   start_kind (flip RT1) = flip_bound_kind (end_kind RT1) /\
   end_kind (flip RT1) = flip_bound_kind (start_kind RT1) /\
   tomb (flip RT1) = tomb RT1 /\
   start_kind (flip RT1) =
     match end_kind RT1 with
     | excl_end => excl_start
     | incl_end => incl_start
     | excl_start => excl_end
     | incl_start => incl_end
     end /\
   end_kind (flip RT1) =
     match start_kind RT1 with
     | excl_end => excl_start
     | incl_end => incl_start
     | excl_start => excl_end
     | incl_start => incl_end
     end /\
   start_kind (flip RT1) <> end_kind RT1 /\
   end_kind (flip RT1) <> start_kind RT1).
Proof.
  split.
  - exact example_schema_valid.
  - exact (flip_involution example_schema RT1 example_schema_valid).
Defined.

Lemma adjacent_symmetric_witness :
  valid_schema example_schema /\
  (adjacent example_schema (mk_bound_view c3 incl_end)
            (mk_bound_view c3 excl_start) =
   adjacent example_schema (mk_bound_view c3 excl_start)
            (mk_bound_view c3 incl_end) /\
   (adjacent example_schema (mk_bound_view c3 incl_end)
             (mk_bound_view c3 excl_start) = true <->
    prefix_equal example_schema c3 c3 = true /\
    incl_end = invert_kind excl_start /\ excl_start = invert_kind incl_end)).
Proof.
  split.
  - exact example_schema_valid.
  - exact (adjacent_symmetric example_schema (mk_bound_view c3 incl_end)
             (mk_bound_view c3 excl_start) example_schema_valid).
Defined.

Lemma feed_hash_sequence_witness :
  prefix_equal example_schema (start PT1) (end_ PT1) = true /\
  start_kind PT1 = incl_start /\ end_kind PT1 = incl_end /\
  is_full example_schema (start PT1) = false /\
  is_single_clustering_row_tombstone example_schema (start PT1)
    (start_kind PT1) (end_ PT1) (end_kind PT1) = false /\
  feed_hash example_schema PT1 [] =
    [] ++ [hashed_prefix (start PT1); hashed_tombstone (tomb PT1)].
Proof.
  split; [reflexivity|]. split; [reflexivity|]. split; [reflexivity|].
  split; [reflexivity|].
  exact (proj2 (feed_hash_sequence example_schema PT1 [])
           eq_refl eq_refl eq_refl eq_refl).
Defined.

Lemma range_tombstone_apply_correct_witness :
  valid_schema example_schema /\
  bound_equal example_schema (start_bound RT3) (start_bound RT1) = true /\
  (let A' := fst (range_tombstone_apply example_schema RT3 RT1) in
   let remainder := snd (range_tombstone_apply example_schema RT3 RT1) in
   let loser :=
     if timestamp (tomb RT3) <? timestamp (tomb RT1) then RT3 else RT1 in
   tomb A' = (if timestamp (tomb RT3) <? timestamp (tomb RT1)
              then tomb RT1 else tomb RT3) /\
   start_bound A' = start_bound RT3 /\
   (end_bound A' = end_bound RT3 \/ end_bound A' = end_bound RT1) /\
   compare_bounds example_schema (end_bound RT3) (end_bound A') = false /\
   compare_bounds example_schema (end_bound RT1) (end_bound A') = false /\
   (compare_bounds example_schema (end_bound A') (end_bound loser) = true ->
    exists r,
      remainder = Some r /\
      start r = end_ A' /\
      start_kind r = invert_kind (end_kind A') /\
      adjacent example_schema (start_bound r) (end_bound A') = true /\
      end_bound r = end_bound loser /\
      tomb r = tomb loser /\
      forall ck, covers example_schema false A' ck 0
                 && covers example_schema false r ck 0 = false) /\
   (compare_bounds example_schema (end_bound A') (end_bound loser) = false ->
    remainder = None)).
Proof.
  split; [exact example_schema_valid|]. split; [reflexivity|].
  exact (range_tombstone_apply_correct example_schema RT3 RT1
           example_schema_valid eq_refl).
Defined.


(** * Further properties of the header *)

(** ** Incomparable positions *)

Lemma compare_incomparable (s : schema) p1 w1 p2 w2 :
  valid_schema s ->
  (bound_view_compare s p1 w1 p2 w2 = false /\
   bound_view_compare s p2 w2 p1 w1 = false <->
   prefix_equal s p1 p2 = true /\ w1 = w2).
Proof.
  intros V.
  pose proof (sgn_opp_cases _ _
    (prefix_tri_compare_antisym _ V p1 p2)) as A.
  unfold bound_view_compare, prefix_equal. cbv zeta.
  split.
  - intros [H12 H21]. revert H12 H21.
    bool_cases; intros; try (split; [reflexivity|]); lia || congruence.
  - intros [E ->]. apply andb_true_iff in E. destruct E as [Ed Er].
    revert Ed Er. bool_cases; intros; (split; lia || congruence).
Qed.

(** X1.  Two (prefix, weight) pairs are incomparable under the comparator,
    whatever the weights are, exactly when the prefixes are schema-equal and
    the weights are the same number. *)
Theorem incomparable_iff_equal (s : schema)
    (p1 : clustering_key_prefix) (w1 : Z)
    (p2 : clustering_key_prefix) (w2 : Z) :
  valid_schema s ->
  (bound_view_compare s p1 w1 p2 w2 = false /\
   bound_view_compare s p2 w2 p1 w1 = false <->
   prefix_equal s p1 p2 = true /\ w1 = w2).
Proof.
  intros V.
  pose proof (sgn_opp_cases _ _
    (prefix_tri_compare_antisym _ V p1 p2)) as A.
  unfold bound_view_compare, prefix_equal. cbv zeta.
  split.
  - intros [H12 H21]. revert H12 H21.
    bool_cases; intros; try (split; [reflexivity|]); lia || congruence.
  - intros [E ->]. apply andb_true_iff in E. destruct E as [Ed Er].
    revert Ed Er. bool_cases; intros; (split; lia || congruence).
Qed.

Lemma incomparable_iff_equal_witness :
  valid_schema example_schema /\
  (bound_view_compare example_schema c1 (-1) c1 (-1) = false /\
   bound_view_compare example_schema c1 (-1) c1 (-1) = false <->
   prefix_equal example_schema c1 c1 = true /\ -1 = -1).
Proof.
  split.
  - exact example_schema_valid.
  - exact (incomparable_iff_equal example_schema c1 (-1) c1 (-1)
             example_schema_valid).
Defined.

Lemma prefix_equal_trans (s : schema) (p1 p2 p3 : clustering_key_prefix) :
  valid_schema s ->
  prefix_equal s p1 p2 = true -> prefix_equal s p2 p3 = true ->
  prefix_equal s p1 p3 = true.
Proof.
  intros V E12 E23.
  destruct (proj2 (compare_incomparable s p1 0 p2 0 V) (conj E12 eq_refl))
    as [A12 A21].
  destruct (proj2 (compare_incomparable s p2 0 p3 0 V) (conj E23 eq_refl))
    as [A23 A32].
  apply (proj1 (compare_incomparable s p1 0 p3 0 V)). split.
  - exact (bound_view_compare_negtrans s _ _ _ _ _ _ V A12 A23).
  - exact (bound_view_compare_negtrans s _ _ _ _ _ _ V A32 A21).
Qed.

(** Incomparable positions compare alike with every third position. *)
Lemma compare_congruence (s : schema) p1 w1 p2 w2 p3 w3 :
  valid_schema s ->
  bound_view_compare s p1 w1 p2 w2 = false ->
  bound_view_compare s p2 w2 p1 w1 = false ->
  bound_view_compare s p1 w1 p3 w3 = bound_view_compare s p2 w2 p3 w3 /\
  bound_view_compare s p3 w3 p1 w1 = bound_view_compare s p3 w3 p2 w2.
Proof.
  intros V H12 H21. split.
  - destruct (bound_view_compare s p1 w1 p3 w3) eqn:E1,
             (bound_view_compare s p2 w2 p3 w3) eqn:E2; try reflexivity.
    + rewrite (bound_view_compare_negtrans s _ _ _ _ _ _ V H12 E2) in E1.
      discriminate.
    + rewrite (bound_view_compare_negtrans s _ _ _ _ _ _ V H21 E1) in E2.
      discriminate.
  - destruct (bound_view_compare s p3 w3 p1 w1) eqn:E1,
             (bound_view_compare s p3 w3 p2 w2) eqn:E2; try reflexivity.
    + rewrite (bound_view_compare_negtrans s _ _ _ _ _ _ V E2 H21) in E1.
      discriminate.
    + rewrite (bound_view_compare_negtrans s _ _ _ _ _ _ V E1 H12) in E2.
      discriminate.
Qed.

(** ** Equality of bounds *)

Lemma bound_kind_eqb_sym (k1 k2 : bound_kind) :
  bound_kind_eqb k1 k2 = bound_kind_eqb k2 k1.
Proof. unfold bound_kind_eqb. apply Z.eqb_sym. Qed.

Lemma bound_equal_sym (s : schema) (a b : bound_view) :
  valid_schema s -> bound_equal s a b = bound_equal s b a.
Proof.
  intros V. unfold bound_equal.
  now rewrite bound_kind_eqb_sym, (prefix_equal_sym s _ _ V).
Qed.

Lemma bound_equal_trans (s : schema) (a b c : bound_view) :
  valid_schema s ->
  bound_equal s a b = true -> bound_equal s b c = true ->
  bound_equal s a c = true.
Proof.
  intros V Hab Hbc. unfold bound_equal in *.
  apply andb_true_iff in Hab. destruct Hab as [Kab Pab].
  apply andb_true_iff in Hbc. destruct Hbc as [Kbc Pbc].
  apply bound_kind_eqb_eq in Kab. apply bound_kind_eqb_eq in Kbc.
  rewrite (prefix_equal_trans s _ _ _ V Pab Pbc).
  rewrite (proj2 (bound_kind_eqb_eq _ _)) by congruence. reflexivity.
Qed.

(** X2.  [bound_view::equal] is an equivalence on bounds: every bound is
    equal to itself, equality does not depend on which bound it is asked
    of, and it is transitive. *)
Theorem bound_equal_equivalence (s : schema) :
  valid_schema s ->
  (forall a, bound_equal s a a = true) /\
  (forall a b, bound_equal s a b = bound_equal s b a) /\
  (forall a b c, bound_equal s a b = true -> bound_equal s b c = true ->
                 bound_equal s a c = true).
Proof.
  intros V. repeat split.
  - intros a. now apply bound_equal_refl.
  - intros a b. now apply bound_equal_sym.
  - intros a b c. now apply bound_equal_trans.
Qed.

Lemma bound_equal_equivalence_witness :
  valid_schema example_schema /\
  ((forall a, bound_equal example_schema a a = true) /\
   (forall a b, bound_equal example_schema a b = bound_equal example_schema b a) /\
   (forall a b c, bound_equal example_schema a b = true ->
                  bound_equal example_schema b c = true ->
                  bound_equal example_schema a c = true)).
Proof.
  split.
  - exact example_schema_valid.
  - exact (bound_equal_equivalence example_schema example_schema_valid).
Defined.

Lemma bound_equal_incomparable (s : schema) (b1 b2 : bound_view) :
  valid_schema s -> bound_equal s b1 b2 = true ->
  compare_bounds s b1 b2 = false /\ compare_bounds s b2 b1 = false.
Proof.
  intros V E. unfold bound_equal in E. apply andb_true_iff in E.
  destruct E as [K P]. apply bound_kind_eqb_eq in K.
  apply (proj2 (compare_incomparable s _ _ _ _ V)). split; [exact P|].
  now rewrite K.
Qed.

(** X3.  Bounds that are [equal] are interchangeable in every comparison:
    against another bound and against a bare prefix, on either side. *)
Theorem equal_bounds_compare_alike (s : schema) (b1 b2 : bound_view) :
  valid_schema s ->
  bound_equal s b1 b2 = true ->
  forall (c : bound_view) (p : clustering_key_prefix),
    compare_bounds s b1 c = compare_bounds s b2 c /\
    compare_bounds s c b1 = compare_bounds s c b2 /\
    compare_bound_prefix s b1 p = compare_bound_prefix s b2 p /\
    compare_prefix_bound s p b1 = compare_prefix_bound s p b2.
Proof.
  intros V E c p.
  destruct (bound_equal_incomparable s b1 b2 V E) as [H12 H21].
  unfold compare_bounds, compare_bound_prefix, compare_prefix_bound in *.
  destruct (compare_congruence s _ _ _ _ (prefix c) (weight (kind c))
              V H12 H21) as [A B].
  destruct (compare_congruence s _ _ _ _ p 0 V H12 H21) as [C D].
  auto.
Qed.

Lemma equal_bounds_compare_alike_witness :
  valid_schema example_schema /\
  bound_equal example_schema (mk_bound_view c1 incl_start)
              (mk_bound_view c1 incl_start) = true /\
  (forall (c : bound_view) (p : clustering_key_prefix),
     compare_bounds example_schema (mk_bound_view c1 incl_start) c =
     compare_bounds example_schema (mk_bound_view c1 incl_start) c /\
     compare_bounds example_schema c (mk_bound_view c1 incl_start) =
     compare_bounds example_schema c (mk_bound_view c1 incl_start) /\
     compare_bound_prefix example_schema (mk_bound_view c1 incl_start) p =
     compare_bound_prefix example_schema (mk_bound_view c1 incl_start) p /\
     compare_prefix_bound example_schema p (mk_bound_view c1 incl_start) =
     compare_prefix_bound example_schema p (mk_bound_view c1 incl_start)).
Proof.
  split; [exact example_schema_valid|]. split; [reflexivity|].
  exact (equal_bounds_compare_alike example_schema
           (mk_bound_view c1 incl_start) (mk_bound_view c1 incl_start)
           example_schema_valid eq_refl).
Defined.

(** ** Rows against bounds *)

(** X4.  A bare prefix and a bound are never incomparable: of "the bound is
    before the prefix" and "the prefix is before the bound" exactly one
    holds. *)
Theorem row_before_or_after_bound (s : schema) (b : bound_view)
    (p : clustering_key_prefix) :
  valid_schema s ->
  compare_prefix_bound s p b = negb (compare_bound_prefix s b p).
Proof.
  intros V. unfold compare_prefix_bound, compare_bound_prefix.
  destruct (bound_view_compare s (prefix b) (weight (kind b)) p 0) eqn:E.
  - now apply bound_view_compare_asym.
  - now apply bound_view_compare_row_total; [|apply weight_nonzero|].
Qed.

Lemma row_before_or_after_bound_witness :
  valid_schema example_schema /\
  compare_prefix_bound example_schema c2 (mk_bound_view c2 excl_end) =
  negb (compare_bound_prefix example_schema (mk_bound_view c2 excl_end) c2).
Proof.
  split.
  - exact example_schema_valid.
  - exact (row_before_or_after_bound example_schema
             (mk_bound_view c2 excl_end) c2 example_schema_valid).
Defined.

Lemma compare_empty_l (s : schema) w1 p2 w2 :
  bound_view_compare s [] w1 p2 w2 =
  match p2 with [] => w1 <? w2 | _ :: _ => w1 <=? 0 end.
Proof. destruct p2; reflexivity. Qed.

Lemma compare_empty_r (s : schema) p1 w1 w2 :
  bound_view_compare s p1 w1 [] w2 =
  match p1 with [] => w1 <? w2 | _ :: _ => 0 <? w2 end.
Proof. destruct p1; reflexivity. Qed.

(** X5.  [bottom] and [top] are the two ends of the order: [bottom] is
    strictly before every bare prefix and [top] strictly after it; [bottom]
    is strictly before, and [top] strictly after, every bound on a prefix
    that is not empty; and [bottom] is strictly before [top].  This holds
    for every table of weights that gives [incl_start] a weight below 0 and
    [incl_end] a weight above 0. *)
Theorem bottom_top_extremes (s : schema) :
  (forall p, compare_bound_prefix s bottom p = true /\
             compare_prefix_bound s p bottom = false /\
             compare_prefix_bound s p top = true /\
             compare_bound_prefix s top p = false) /\
  (forall b, prefix b <> [] ->
             compare_bounds s bottom b = true /\
             compare_bounds s b bottom = false /\
             compare_bounds s b top = true /\
             compare_bounds s top b = false) /\
  (compare_bounds s bottom top = true /\ compare_bounds s top bottom = false) /\
  (forall w b, w incl_start < 0 -> 0 < w incl_end -> prefix b <> [] ->
               compare_bounds_with w s bottom b = true /\
               compare_bounds_with w s b bottom = false /\
               compare_bounds_with w s b top = true /\
               compare_bounds_with w s top b = false /\
               compare_bounds_with w s bottom top = true /\
               compare_bounds_with w s top bottom = false).
Proof.
  unfold compare_bound_prefix, compare_prefix_bound, compare_bounds,
    compare_bounds_with, bottom, top, empty_prefix. simpl.
  split; [|split; [|split]].
  - intros p. rewrite !compare_empty_l, !compare_empty_r.
    destruct p; repeat split.
  - intros [p k] N. simpl in *. rewrite !compare_empty_l, !compare_empty_r.
    destruct p; [congruence|]. repeat split.
  - split; reflexivity.
  - intros w [p k] Ws We N. simpl in *.
    rewrite !compare_empty_l, !compare_empty_r.
    destruct p; [congruence|].
    repeat split; bool_cases; reflexivity || lia.
Qed.

Lemma bottom_top_extremes_witness :
  (separated_weight incl_start < 0 /\ 0 < separated_weight incl_end /\
   prefix (mk_bound_view c1 excl_end) <> []) /\
  (compare_bounds_with separated_weight example_schema bottom
     (mk_bound_view c1 excl_end) = true /\
   compare_bounds_with separated_weight example_schema
     (mk_bound_view c1 excl_end) bottom = false /\
   compare_bounds_with separated_weight example_schema
     (mk_bound_view c1 excl_end) top = true /\
   compare_bounds_with separated_weight example_schema top
     (mk_bound_view c1 excl_end) = false /\
   compare_bounds_with separated_weight example_schema bottom top = true /\
   compare_bounds_with separated_weight example_schema top bottom = false).
Proof.
  assert (H : separated_weight incl_start < 0 /\
              0 < separated_weight incl_end /\
              prefix (mk_bound_view c1 excl_end) <> []).
  { repeat split; simpl; try lia. discriminate. }
  split; [exact H|].
  destruct H as [H1 [H2 H3]].
  exact (proj2 (proj2 (proj2 (bottom_top_extremes example_schema)))
           separated_weight (mk_bound_view c1 excl_end) H1 H2 H3).
Defined.

(** X6.  Every key that extends a prefix [p] lies inside the inclusive
    bounds on [p] and outside the exclusive ones: it is not before
    [(p, incl_start)] and not after [(p, incl_end)], but it is before
    [(p, excl_start)] and after [(p, excl_end)]. *)
Theorem extension_inside_inclusive_bounds (s : schema)
    (p : clustering_key_prefix) (x : bytes) (q : clustering_key_prefix) :
  valid_schema s ->
  compare_prefix_bound s (p ++ x :: q) (mk_bound_view p incl_start) = false /\
  compare_bound_prefix s (mk_bound_view p incl_end) (p ++ x :: q) = false /\
  compare_prefix_bound s (p ++ x :: q) (mk_bound_view p excl_start) = true /\
  compare_bound_prefix s (mk_bound_view p excl_end) (p ++ x :: q) = true.
Proof.
  intros V. unfold compare_prefix_bound, compare_bound_prefix. simpl.
  rewrite !(compare_extension_r s p x q _ _ V).
  rewrite !(compare_extension_l s p x q _ _ V).
  repeat split.
Qed.

Lemma extension_inside_inclusive_bounds_witness :
  valid_schema example_schema /\
  (compare_prefix_bound example_schema (c1 ++ [x09] :: [])
                        (mk_bound_view c1 incl_start) = false /\
   compare_bound_prefix example_schema (mk_bound_view c1 incl_end)
                        (c1 ++ [x09] :: []) = false /\
   compare_prefix_bound example_schema (c1 ++ [x09] :: [])
                        (mk_bound_view c1 excl_start) = true /\
   compare_bound_prefix example_schema (mk_bound_view c1 excl_end)
                        (c1 ++ [x09] :: []) = true).
Proof.
  split.
  - exact example_schema_valid.
  - exact (extension_inside_inclusive_bounds example_schema c1 [x09] []
             example_schema_valid).
Defined.

(** ** When an earlier column decides *)

Lemma prefix_tri_compare_app (ts : list data_type)
    (p1 p2 q1 q2 : clustering_key_prefix) :
  prefix_equality_tri_compare ts p1 p2 <> 0 ->
  prefix_equality_tri_compare ts (p1 ++ q1) (p2 ++ q2) =
  prefix_equality_tri_compare ts p1 p2.
Proof.
  revert ts p2. induction p1 as [|v1 r1 IH]; intros ts [|v2 r2];
    simpl; try congruence.
  destruct ts as [|t ts]; [congruence|].
  destruct (Z.eqb_spec (tri_compare t v1 v2) 0); simpl; [apply IH|reflexivity].
Qed.

(** X7.  When two prefixes differ on a column they both have, that column
    decides: the comparison is the same whatever components follow on
    either side and whatever the weights are, and it goes one way or the
    other. *)
Theorem earlier_column_decides (s : schema)
    (p1 p2 q1 q2 : clustering_key_prefix) (w1 w2 w1' w2' : Z) :
  valid_schema s ->
  prefix_equality_tri_compare (clustering_key_prefix_type s) p1 p2 <> 0 ->
  bound_view_compare s (p1 ++ q1) w1 (p2 ++ q2) w2 =
    bound_view_compare s p1 w1' p2 w2' /\
  bound_view_compare s p2 w2' p1 w1' = negb (bound_view_compare s p1 w1' p2 w2').
Proof.
  intros V N.
  pose proof (sgn_opp_cases _ _
    (prefix_tri_compare_antisym _ V p1 p2)) as A.
  unfold bound_view_compare. cbv zeta.
  rewrite (prefix_tri_compare_app _ p1 p2 q1 q2 N).
  split.
  - destruct (Z.eqb_spec
      (prefix_equality_tri_compare (clustering_key_prefix_type s) p1 p2) 0);
      [contradiction|reflexivity].
  - revert N. bool_cases; intros; lia || congruence.
Qed.

Lemma earlier_column_decides_witness :
  valid_schema example_schema /\
  prefix_equality_tri_compare (clustering_key_prefix_type example_schema)
                              c1 c2 <> 0 /\
  (bound_view_compare example_schema (c1 ++ c4) 1 (c2 ++ c3) (-1) =
     bound_view_compare example_schema c1 0 c2 0 /\
   bound_view_compare example_schema c2 0 c1 0 =
     negb (bound_view_compare example_schema c1 0 c2 0)).
Proof.
  split; [exact example_schema_valid|].
  split; [vm_compute; discriminate|].
  apply (earlier_column_decides example_schema c1 c2 c4 c3 1 (-1) 0 0
           example_schema_valid).
  vm_compute. discriminate.
Defined.

(** ** Range tombstones as keys *)

(** X8.  [range_tombstone::compare] is a strict weak order on range
    tombstones, and it looks at the start bound only: two range tombstones
    whose start bounds are [equal] are incomparable, whatever their end
    bounds and tombstones are. *)
Theorem range_tombstone_compare_strict_weak_order (s : schema) :
  valid_schema s ->
  (forall rt, range_tombstone_compare s rt rt = false) /\
  (forall rt1 rt2 rt3,
     range_tombstone_compare s rt1 rt2 = true ->
     range_tombstone_compare s rt2 rt3 = true ->
     range_tombstone_compare s rt1 rt3 = true) /\
  (forall rt1 rt2 rt3,
     range_tombstone_compare s rt1 rt2 = false /\
     range_tombstone_compare s rt2 rt1 = false ->
     range_tombstone_compare s rt2 rt3 = false /\
     range_tombstone_compare s rt3 rt2 = false ->
     range_tombstone_compare s rt1 rt3 = false /\
     range_tombstone_compare s rt3 rt1 = false) /\
  (forall rt1 rt2,
     bound_equal s (start_bound rt1) (start_bound rt2) = true ->
     range_tombstone_compare s rt1 rt2 = false /\
     range_tombstone_compare s rt2 rt1 = false).
Proof.
  intros V. unfold range_tombstone_compare, compare_bounds. repeat split.
  - intros. now apply bound_view_compare_irrefl.
  - intros. eapply bound_view_compare_trans; eauto.
  - destruct H, H0. eapply bound_view_compare_negtrans; eauto.
  - destruct H, H0. eapply bound_view_compare_negtrans; eauto.
  - now apply (bound_equal_incomparable s _ _ V H).
  - now apply (bound_equal_incomparable s _ _ V H).
Qed.

Lemma range_tombstone_compare_strict_weak_order_witness :
  valid_schema example_schema /\
  ((forall rt, range_tombstone_compare example_schema rt rt = false) /\
   (forall rt1 rt2 rt3,
      range_tombstone_compare example_schema rt1 rt2 = true ->
      range_tombstone_compare example_schema rt2 rt3 = true ->
      range_tombstone_compare example_schema rt1 rt3 = true) /\
   (forall rt1 rt2 rt3,
      range_tombstone_compare example_schema rt1 rt2 = false /\
      range_tombstone_compare example_schema rt2 rt1 = false ->
      range_tombstone_compare example_schema rt2 rt3 = false /\
      range_tombstone_compare example_schema rt3 rt2 = false ->
      range_tombstone_compare example_schema rt1 rt3 = false /\
      range_tombstone_compare example_schema rt3 rt1 = false) /\
   (forall rt1 rt2,
      bound_equal example_schema (start_bound rt1) (start_bound rt2) = true ->
      range_tombstone_compare example_schema rt1 rt2 = false /\
      range_tombstone_compare example_schema rt2 rt1 = false)).
Proof.
  split.
  - exact example_schema_valid.
  - exact (range_tombstone_compare_strict_weak_order example_schema
             example_schema_valid).
Defined.

(** ** Equality of range tombstones *)

Lemma tombstone_eqb_eq (t1 t2 : tombstone) :
  tombstone_eqb t1 t2 = true <-> t1 = t2.
Proof.
  destruct t1 as [a1 d1], t2 as [a2 d2]. unfold tombstone_eqb. simpl.
  rewrite andb_true_iff, !Z.eqb_eq. split.
  - intros [-> ->]. reflexivity.
  - intros H. injection H. auto.
Qed.

Lemma tombstone_eqb_sym (t1 t2 : tombstone) :
  tombstone_eqb t1 t2 = tombstone_eqb t2 t1.
Proof.
  unfold tombstone_eqb.
  now rewrite (Z.eqb_sym (timestamp t1)), (Z.eqb_sym (deletion_time t1)).
Qed.

(** X9.  [range_tombstone::equal] is an equivalence on range tombstones. *)
Theorem range_tombstone_equal_equivalence (s : schema) :
  valid_schema s ->
  (forall rt, range_tombstone_equal s rt rt = true) /\
  (forall rt1 rt2,
     range_tombstone_equal s rt1 rt2 = range_tombstone_equal s rt2 rt1) /\
  (forall rt1 rt2 rt3,
     range_tombstone_equal s rt1 rt2 = true ->
     range_tombstone_equal s rt2 rt3 = true ->
     range_tombstone_equal s rt1 rt3 = true).
Proof.
  intros V. unfold range_tombstone_equal. repeat split.
  - intros rt.
    now rewrite tombstone_eqb_refl, !(bound_equal_refl s _ V).
  - intros rt1 rt2.
    now rewrite tombstone_eqb_sym, (bound_equal_sym s (start_bound rt1) _ V),
      (bound_equal_sym s (end_bound rt1) _ V).
  - intros rt1 rt2 rt3 H12 H23.
    apply andb_true_iff in H12. destruct H12 as [H12 E12].
    apply andb_true_iff in H12. destruct H12 as [T12 S12].
    apply andb_true_iff in H23. destruct H23 as [H23 E23].
    apply andb_true_iff in H23. destruct H23 as [T23 S23].
    apply tombstone_eqb_eq in T12. apply tombstone_eqb_eq in T23.
    rewrite (bound_equal_trans s _ _ _ V S12 S23).
    rewrite (bound_equal_trans s _ _ _ V E12 E23).
    rewrite (proj2 (tombstone_eqb_eq _ _)) by congruence. reflexivity.
Qed.

Lemma range_tombstone_equal_equivalence_witness :
  valid_schema example_schema /\
  ((forall rt, range_tombstone_equal example_schema rt rt = true) /\
   (forall rt1 rt2,
      range_tombstone_equal example_schema rt1 rt2 =
      range_tombstone_equal example_schema rt2 rt1) /\
   (forall rt1 rt2 rt3,
      range_tombstone_equal example_schema rt1 rt2 = true ->
      range_tombstone_equal example_schema rt2 rt3 = true ->
      range_tombstone_equal example_schema rt1 rt3 = true)).
Proof.
  split.
  - exact example_schema_valid.
  - exact (range_tombstone_equal_equivalence example_schema
             example_schema_valid).
Defined.

(** ** Flip and the other operations *)

Lemma bound_kind_eqb_flip (k1 k2 : bound_kind) :
  bound_kind_eqb (flip_bound_kind k1) (flip_bound_kind k2) =
  bound_kind_eqb k1 k2.
Proof. destruct k1, k2; reflexivity. Qed.

(** X10.  Flipping both range tombstones does not change whether they are
    [equal]. *)
Theorem flip_preserves_equal (s : schema) (rt1 rt2 : range_tombstone) :
  range_tombstone_equal s (flip rt1) (flip rt2) =
  range_tombstone_equal s rt1 rt2.
Proof.
  destruct rt1 as [a1 ka1 b1 kb1 t1], rt2 as [a2 ka2 b2 kb2 t2].
  unfold range_tombstone_equal, bound_equal, flip. simpl.
  rewrite !bound_kind_eqb_flip.
  destruct (tombstone_eqb t1 t2), (bound_kind_eqb ka1 ka2),
    (bound_kind_eqb kb1 kb2), (prefix_equal s a1 a2), (prefix_equal s b1 b2);
    reflexivity.
Qed.

(** X11.  Flipping a range tombstone does not change whether it is a
    single-clustering-row tombstone. *)
Theorem flip_preserves_single_row (s : schema) (rt : range_tombstone) :
  valid_schema s ->
  is_single_clustering_row_tombstone s
    (start (flip rt)) (start_kind (flip rt))
    (end_ (flip rt)) (end_kind (flip rt)) =
  is_single_clustering_row_tombstone s
    (start rt) (start_kind rt) (end_ rt) (end_kind rt).
Proof.
  intros V. destruct rt as [a ka b kb t].
  unfold is_single_clustering_row_tombstone, flip. simpl.
  rewrite (prefix_equal_sym s b a V).
  destruct (prefix_equal s a b) eqn:E.
  - unfold prefix_equal in E. apply andb_true_iff in E. destruct E as [Ed _].
    apply Nat.eqb_eq in Ed. unfold is_full. rewrite Ed.
    destruct ka, kb; simpl; rewrite ?andb_false_r; reflexivity.
  - now rewrite !andb_false_r.
Qed.

Lemma flip_preserves_single_row_witness :
  valid_schema example_schema /\
  is_single_clustering_row_tombstone example_schema
    (start (flip PT1)) (start_kind (flip PT1))
    (end_ (flip PT1)) (end_kind (flip PT1)) =
  is_single_clustering_row_tombstone example_schema
    (start PT1) (start_kind PT1) (end_ PT1) (end_kind PT1).
Proof.
  split.
  - exact example_schema_valid.
  - exact (flip_preserves_single_row example_schema PT1 example_schema_valid).
Defined.

(** ** Hashing *)

(** X12.  For a single-clustering-row tombstone [feed_hash] feeds the start
    prefix and the tombstone only. *)
Theorem single_row_hash (s : schema) (rt : range_tombstone) (h : hasher) :
  is_single_clustering_row_tombstone s
    (start rt) (start_kind rt) (end_ rt) (end_kind rt) = true ->
  feed_hash s rt h = h ++ [hashed_prefix (start rt); hashed_tombstone (tomb rt)].
Proof.
  unfold is_single_clustering_row_tombstone, feed_hash, feed. intros H.
  apply andb_true_iff in H. destruct H as [H E].
  apply andb_true_iff in H. destruct H as [H Ke].
  apply andb_true_iff in H. destruct H as [_ Ks].
  rewrite E, Ks, Ke. simpl. now rewrite <- app_assoc.
Qed.

Lemma single_row_hash_witness :
  is_single_clustering_row_tombstone example_schema
    (start FT1) (start_kind FT1) (end_ FT1) (end_kind FT1) = true /\
  feed_hash example_schema FT1 [] =
    [] ++ [hashed_prefix (start FT1); hashed_tombstone (tomb FT1)].
Proof.
  split; [reflexivity|].
  exact (single_row_hash example_schema FT1 [] eq_refl).
Defined.

Lemma feed_hash_app (s : schema) (rt : range_tombstone) (h : hasher) :
  feed_hash s rt h = h ++ feed_hash s rt [].
Proof.
  unfold feed_hash, feed.
  destruct (negb (prefix_equal s (start rt) (end_ rt))
            || negb (bound_kind_eqb (start_kind rt) incl_start)
            || negb (bound_kind_eqb (end_kind rt) incl_end));
    simpl; rewrite <- ?app_assoc; reflexivity.
Qed.

(** X13.  [feed_hash] only appends: what the hasher already holds stays in
    front, and what is appended does not depend on it; so feeding two range
    tombstones one after the other appends the two sequences in order. *)
Theorem feed_hash_appends (s : schema) (rt1 rt2 : range_tombstone)
    (h : hasher) :
  feed_hash s rt1 h = h ++ feed_hash s rt1 [] /\
  feed_hash s rt2 (feed_hash s rt1 h) =
    h ++ feed_hash s rt1 [] ++ feed_hash s rt2 [].
Proof.
  split.
  - apply feed_hash_app.
  - rewrite (feed_hash_app s rt2), (feed_hash_app s rt1 h).
    now rewrite app_assoc.
Qed.

(** X14.  Two range tombstones that feed the same values to the hasher have
    the same start prefix, the same kinds and the same tombstone; their end
    prefixes are the same too, unless both are of the form whose end is left
    out of the hash, where each end is schema-equal to the start. *)
Theorem feed_hash_injective (s : schema) (rt1 rt2 : range_tombstone)
    (h : hasher) :
  feed_hash s rt1 h = feed_hash s rt2 h ->
  start rt1 = start rt2 /\
  start_kind rt1 = start_kind rt2 /\
  end_kind rt1 = end_kind rt2 /\
  tomb rt1 = tomb rt2 /\
  (end_ rt1 = end_ rt2 \/
   prefix_equal s (start rt1) (end_ rt1) = true /\
   prefix_equal s (start rt2) (end_ rt2) = true).
Proof.
  rewrite (feed_hash_app s rt1 h), (feed_hash_app s rt2 h).
  intros H. apply app_inv_head in H. revert H.
  unfold feed_hash, feed.
  destruct (prefix_equal s (start rt1) (end_ rt1)) eqn:E1,
           (bound_kind_eqb (start_kind rt1) incl_start) eqn:S1,
           (bound_kind_eqb (end_kind rt1) incl_end) eqn:K1,
           (prefix_equal s (start rt2) (end_ rt2)) eqn:E2,
           (bound_kind_eqb (start_kind rt2) incl_start) eqn:S2,
           (bound_kind_eqb (end_kind rt2) incl_end) eqn:K2;
    simpl; intros H; try discriminate H; injection H; intros;
    repeat split; auto;
    apply bound_kind_eqb_eq in S1, K1, S2, K2; congruence.
Qed.

Lemma feed_hash_injective_witness :
  feed_hash example_schema PT1 [] = feed_hash example_schema PT1 [] /\
  (start PT1 = start PT1 /\
   start_kind PT1 = start_kind PT1 /\
   end_kind PT1 = end_kind PT1 /\
   tomb PT1 = tomb PT1 /\
   (end_ PT1 = end_ PT1 \/
    prefix_equal example_schema (start PT1) (end_ PT1) = true /\
    prefix_equal example_schema (start PT1) (end_ PT1) = true)).
Proof.
  split; [reflexivity|].
  exact (feed_hash_injective example_schema PT1 PT1 [] eq_refl).
Defined.

(** ** What a single-row tombstone covers *)

(** X15.  A single-clustering-row tombstone covers its own key and no other:
    a prefix with no more components than the key is neither before the
    start bound nor after the end bound exactly when it is schema-equal to
    the key. *)
Theorem single_row_covers_its_key (s : schema) (rt : range_tombstone)
    (ck : clustering_key_prefix) :
  valid_schema s ->
  is_single_clustering_row_tombstone s
    (start rt) (start_kind rt) (end_ rt) (end_kind rt) = true ->
  (size ck <= size (start rt))%nat ->
  (compare_prefix_bound s ck (start_bound rt) = false /\
   compare_bound_prefix s (end_bound rt) ck = false <->
   prefix_equal s ck (start rt) = true).
Proof.
  intros V H L. unfold is_single_clustering_row_tombstone in H.
  apply andb_true_iff in H. destruct H as [H E].
  apply andb_true_iff in H. destruct H as [H Ke].
  apply andb_true_iff in H. destruct H as [_ Ks].
  apply bound_kind_eqb_eq in Ks. apply bound_kind_eqb_eq in Ke.
  unfold compare_prefix_bound, compare_bound_prefix, start_bound, end_bound.
  simpl. rewrite Ks, Ke. simpl.
  destruct (proj2 (compare_incomparable s (start rt) 1 (end_ rt) 1 V)
              (conj E eq_refl)) as [A B].
  destruct (compare_congruence s _ _ _ _ ck 0 V A B) as [C _].
  rewrite <- C. clear A B C.
  pose proof (sgn_opp_cases _ _
    (prefix_tri_compare_antisym _ V ck (start rt))) as S.
  unfold bound_view_compare, prefix_equal. cbv zeta. revert L.
  unfold size. split.
  - intros [H1 H2]. revert H1 H2.
    bool_cases; intros; reflexivity || lia || congruence.
  - intros H. apply andb_true_iff in H. destruct H as [H1 H2]. revert H1 H2.
    bool_cases; intros; (split; reflexivity || lia || congruence).
Qed.

Lemma single_row_covers_its_key_witness :
  valid_schema example_schema /\
  is_single_clustering_row_tombstone example_schema
    (start FT1) (start_kind FT1) (end_ FT1) (end_kind FT1) = true /\
  (size k12 <= size (start FT1))%nat /\
  (compare_prefix_bound example_schema k12 (start_bound FT1) = false /\
   compare_bound_prefix example_schema (end_bound FT1) k12 = false <->
   prefix_equal example_schema k12 (start FT1) = true).
Proof.
  split; [exact example_schema_valid|]. split; [reflexivity|].
  split; [vm_compute; repeat constructor|].
  apply (single_row_covers_its_key example_schema FT1 k12
           example_schema_valid eq_refl).
  vm_compute. repeat constructor.
Defined.

(** ** Adjacent bounds *)

Lemma invert_kind_injective (k1 k2 : bound_kind) :
  invert_kind k1 = invert_kind k2 -> k1 = k2.
Proof.
  intros H. rewrite <- (invert_kind_involutive k1), H.
  apply invert_kind_involutive.
Qed.

(** X16.  No bound is adjacent to itself, adjacent bounds are never
    [equal], two bounds adjacent to the same bound are [equal], and
    adjacency to a bound carries over to every bound [equal] to it. *)
Theorem adjacent_and_equal (s : schema) :
  valid_schema s ->
  (forall a, adjacent s a a = false) /\
  (forall a b, adjacent s a b = true -> bound_equal s a b = false) /\
  (forall a b c, adjacent s a b = true -> adjacent s a c = true ->
                 bound_equal s b c = true) /\
  (forall a b c, bound_equal s b c = true -> adjacent s a b = adjacent s a c).
Proof.
  intros V. unfold adjacent, bound_equal. repeat split.
  - intros a. destruct (kind a); reflexivity.
  - intros a b H. apply andb_true_iff in H. destruct H as [K _].
    apply bound_kind_eqb_eq in K. rewrite <- K.
    destruct (kind b); reflexivity.
  - intros a b c Hb Hc.
    apply andb_true_iff in Hb. destruct Hb as [Kb Pb].
    apply andb_true_iff in Hc. destruct Hc as [Kc Pc].
    apply bound_kind_eqb_eq in Kb. apply bound_kind_eqb_eq in Kc.
    rewrite (prefix_equal_sym s _ _ V) in Pb.
    rewrite (prefix_equal_trans s _ _ _ V Pb Pc).
    rewrite (proj2 (bound_kind_eqb_eq _ _)); [reflexivity|].
    apply invert_kind_injective. congruence.
  - intros a b c H. apply andb_true_iff in H. destruct H as [K P].
    apply bound_kind_eqb_eq in K. rewrite K. f_equal.
    destruct (prefix_equal s (prefix a) (prefix b)) eqn:Eb,
             (prefix_equal s (prefix a) (prefix c)) eqn:Ec; try reflexivity.
    + rewrite (prefix_equal_trans s _ _ _ V Eb P) in Ec. discriminate.
    + rewrite (prefix_equal_sym s _ _ V) in P.
      rewrite (prefix_equal_trans s _ _ _ V Ec P) in Eb. discriminate.
Qed.

Lemma adjacent_and_equal_witness :
  valid_schema example_schema /\
  ((forall a, adjacent example_schema a a = false) /\
   (forall a b, adjacent example_schema a b = true ->
                bound_equal example_schema a b = false) /\
   (forall a b c, adjacent example_schema a b = true ->
                  adjacent example_schema a c = true ->
                  bound_equal example_schema b c = true) /\
   (forall a b c, bound_equal example_schema b c = true ->
                  adjacent example_schema a b = adjacent example_schema a c)).
Proof.
  split.
  - exact example_schema_valid.
  - exact (adjacent_and_equal example_schema example_schema_valid).
Defined.

(** X17.  Adjacent bounds cut the rows at the same place: a range that ends
    at one of them and a range that starts at the other share no row and
    leave no row between them, for a row is before the second bound exactly
    when the first bound is not before the row. *)
Theorem adjacent_no_gap_no_overlap (s : schema) (a b : bound_view)
    (p : clustering_key_prefix) :
  valid_schema s ->
  adjacent s a b = true ->
  compare_prefix_bound s p b = negb (compare_bound_prefix s a p).
Proof.
  intros V H. unfold adjacent in H. apply andb_true_iff in H.
  destruct H as [K P]. apply bound_kind_eqb_eq in K.
  assert (W : weight (kind a) = weight (kind b))
    by (rewrite <- K; apply weight_invert_kind).
  destruct (proj2 (compare_incomparable s _ _ _ _ V) (conj P W)) as [A B].
  destruct (compare_congruence s _ _ _ _ p 0 V A B) as [C D].
  unfold compare_prefix_bound, compare_bound_prefix. rewrite <- D.
  destruct (bound_view_compare s (prefix a) (weight (kind a)) p 0) eqn:E.
  - now apply bound_view_compare_asym.
  - now apply bound_view_compare_row_total; [|apply weight_nonzero|].
Qed.

Lemma adjacent_no_gap_no_overlap_witness :
  valid_schema example_schema /\
  adjacent example_schema (mk_bound_view c2 excl_end)
           (mk_bound_view c2 incl_start) = true /\
  compare_prefix_bound example_schema c2 (mk_bound_view c2 incl_start) =
  negb (compare_bound_prefix example_schema (mk_bound_view c2 excl_end) c2).
Proof.
  split; [exact example_schema_valid|]. split; [reflexivity|].
  exact (adjacent_no_gap_no_overlap example_schema
           (mk_bound_view c2 excl_end) (mk_bound_view c2 incl_start) c2
           example_schema_valid eq_refl).
Defined.
